(** * MP3MetaDataReader: a shallow embedding of [MP3MetaDataReader.h]

    The header-only class reads the title, artist, album and year of an MP3
    file from its ID3v2 tag (when the file starts with "ID3") or from the
    128-byte ID3v1 trailer.  The development models

    - [char], [std::string] and the 32-bit [int] arithmetic of the decoders;
    - [std::ifstream] as a record (contents, get position, eofbit, failbit)
      with [seekg] and [read] as the standard library defines them;
    - the uninitialised [char] arrays as cells that hold no value until a
      read fills them; examining such a cell is the outcome [Undefined];
    - the functions of the class, in the order of the header, in a state
      monad over the stream, the record being filled and a trace of the
      reads and calls made; the [while] loop takes fuel, and
      [returns_readID3v2Tag] shows it never lacks any.

    Memory is taken as unbounded: the allocation of a frame buffer does not
    fail, and sizes stay far below the range of [size_t].  *)

From Stdlib Require Import Ascii String.
From Stdlib Require Import ZArith List Bool Lia.
Import ListNotations.
Local Open Scope Z_scope.

(** ** Characters, strings and [int] *)

Definition char := ascii.

(** [std::string]: a counted sequence of chars, NUL allowed inside. *)
Definition std_string := list char.

Definition lit (s : string) : std_string := list_ascii_of_string s.
Arguments lit s%_string.

Definition NUL : char := Ascii.zero.

(** The value of a [char] seen as [unsigned char]. *)
Definition uchar_value (c : char) : Z := Z.of_N (N_of_ascii c).

(** Integral promotion of a plain [char] where [char] is signed. *)
Definition char_value (c : char) : Z :=
  let u := uchar_value c in if u <? 128 then u else u - 256.

(** Two's complement reduction to a 32-bit [int]. *)
Definition wrap_int (z : Z) : Z := (z + 2 ^ 31) mod 2 ^ 32 - 2 ^ 31.

Definition int_shl (a n : Z) : Z := wrap_int (Z.shiftl a n).
Definition int_add (a b : Z) : Z := wrap_int (a + b).

(** ** decodeSynchsafeInt

    [b0 .. b3] are [buffer[0] .. buffer[3]] of the pointer argument. *)
Definition decodeSynchsafeInt (b0 b1 b2 b3 : char) : Z :=
  Z.lor
    (Z.lor
       (Z.lor (int_shl (Z.land (char_value b0) 0x7F) 21)
              (int_shl (Z.land (char_value b1) 0x7F) 14))
       (int_shl (Z.land (char_value b2) 0x7F) 7))
    (Z.land (char_value b3) 0x7F).

(** ** parseTextFrame *)

(** [s[pos]] of [std::string]: the char at [pos], and [CharT()] at
    [pos = s.size()].  Positions beyond the size are not defined by the
    language; [utf16_positions_in_range] shows the decoder uses none. *)
Definition string_at (s : std_string) (pos : nat) : char := nth pos s NUL.

(** [s.substr(pos)] for [pos <= s.size()]. *)
Definition substr (s : std_string) (pos : nat) : std_string := skipn pos s.

(** The values [i] takes in [for (size_t i = 0; i < size; i += 2)], starting
    from [i].  The body changes neither [i] nor [size]. *)
Fixpoint loop_indices (fuel : nat) (i size : nat) : list nat :=
  match fuel with
  | O => []
  | S fuel' =>
      if (i <? size)%nat then i :: loop_indices fuel' (i + 2) size else []
  end.

(** The positions of [textContent] the UTF-16 branch indexes. *)
Definition utf16_positions (textContent : std_string) : list nat :=
  map (fun i => (i + 1)%nat)
      (loop_indices (length textContent) 0 (length textContent)).

Definition parseTextFrame (content : std_string) : std_string :=
  match content with
  | [] => []
  | c0 :: _ =>
      let encoding := uchar_value c0 in
      let textContent := substr content 1 in
      if encoding =? 0 then textContent
      else if encoding =? 1 then
        fold_left (fun utf16Text p => utf16Text ++ [string_at textContent p])
                  (utf16_positions textContent) []
      else textContent
  end.

Fixpoint std_string_eqb (a b : std_string) : bool :=
  match a, b with
  | [], [] => true
  | x :: a', y :: b' => Ascii.eqb x y && std_string_eqb a' b'
  | _, _ => false
  end.

(** ** The MetaData struct, exceptions and the stream *)

Record MetaData := mkMetaData {
  title : std_string;
  artist : std_string;
  album : std_string;
  year : std_string
}.

(** A default-constructed [MetaData]: four empty strings. *)
Definition empty_MetaData : MetaData := mkMetaData [] [] [] [].

Inductive exception := runtime_error (what : string).
Arguments runtime_error what%_string.

(** [std::ifstream] over a file of known contents.  The exception mask of
    the stream is never changed in the class, so a failed operation only sets
    state bits. *)
Record ifstream := mkIfstream {
  contents : std_string;
  gpos : nat;
  eofbit : bool;
  failbit : bool;
  is_open : bool
}.

Definition good (f : ifstream) : bool := negb (eofbit f || failbit f).

Inductive seekdir := ios_beg | ios_end.

(** What an execution did, in order: the stream reads (position, requested
    count, delivered count) and the calls of the class's own functions. *)
Inductive event :=
| Ev_read (pos count gcount : nat)
| Call_readID3v1Tag
| Call_readID3v2Tag
| Call_parseTextFrame (content : std_string).

(** The objects [readMetadata] owns: the stream, the record the readers
    fill by reference, and the events so far. *)
Record world := mkWorld {
  file : ifstream;
  metadata : MetaData;
  trace : list event
}.

Inductive outcome (A : Type) :=
| Val (a : A)
| Throw (e : exception)
| Undefined     (* a char that holds no value was examined *)
| OutOfFuel.
Arguments Val {A} a.
Arguments Throw {A} e.
Arguments Undefined {A}.
Arguments OutOfFuel {A}.

Definition M (A : Type) := world -> world * outcome A.

Definition ret {A} (a : A) : M A := fun w => (w, Val a).

Definition bind {A B} (m : M A) (k : A -> M B) : M B :=
  fun w =>
    match m w with
    | (w', Val a) => k a w'
    | (w', Throw e) => (w', Throw e)
    | (w', Undefined) => (w', Undefined)
    | (w', OutOfFuel) => (w', OutOfFuel)
    end.

Definition throw {A} (e : exception) : M A := fun w => (w, Throw e).
Definition undefined {A} : M A := fun w => (w, Undefined).
Definition out_of_fuel {A} : M A := fun w => (w, OutOfFuel).

Declare Scope cpp_scope.
Delimit Scope cpp_scope with cpp.
Notation "x <- m ;; k" := (bind m (fun x => k))
  (at level 61, m at next level, right associativity) : cpp_scope.
Notation "m ;; k" := (bind m (fun _ => k))
  (at level 61, right associativity) : cpp_scope.
Local Open Scope cpp_scope.

(** [a && b]: [b] is evaluated only when [a] is true. *)
Definition and_then (a b : M bool) : M bool :=
  x <- a ;; if x then b else ret false.
Infix "&&&" := and_then (at level 40, left associativity) : cpp_scope.

Definition log (e : event) : M unit :=
  fun w => (mkWorld (file w) (metadata w) (trace w ++ [e]), Val tt).

Definition set_file (f : ifstream) (w : world) : world :=
  mkWorld f (metadata w) (trace w).

Definition set_metadata (m : MetaData) : M unit :=
  fun w => (mkWorld (file w) m (trace w), Val tt).

Definition get_metadata : M MetaData := fun w => (w, Val (metadata w)).

(** A [char] array cell: [None] until something is stored in it. *)
Definition cell := option char.

(** [char a[n];] *)
Definition uninitialised (n : nat) : list cell := repeat None n.

(** [std::vector<char> v(n);] value-initialises its elements. *)
Definition zeroed (n : nat) : list cell := repeat (Some NUL) n.

(** [file.seekg(off, dir)]: clears eofbit; does nothing more on a failed
    stream; a target before the start of the file sets failbit. *)
Definition seekg (off : Z) (dir : seekdir) : M unit :=
  fun w =>
    let f := file w in
    if failbit f then
      (set_file (mkIfstream (contents f) (gpos f) false true (is_open f)) w,
       Val tt)
    else
      let base := match dir with
                  | ios_beg => 0
                  | ios_end => Z.of_nat (length (contents f))
                  end in
      let target := base + off in
      if target <? 0 then
        (set_file (mkIfstream (contents f) (gpos f) false true (is_open f)) w,
         Val tt)
      else
        (set_file (mkIfstream (contents f) (Z.to_nat target) false false
                              (is_open f)) w,
         Val tt).

(** [file.read(buf, count)]: on a stream that is not good, sets failbit and
    stores nothing; otherwise stores the chars available up to [count] at
    the front of [buf], and sets eofbit and failbit when they are fewer than
    [count].  The cells not stored to keep what they held. *)
Definition read (buf : list cell) (count : nat) : M (list cell) :=
  fun w =>
    let f := file w in
    if good f then
      let got := firstn count (skipn (gpos f) (contents f)) in
      let short := (length got <? count)%nat in
      (mkWorld (mkIfstream (contents f) (gpos f + length got) short short
                           (is_open f))
               (metadata w)
               (trace w ++ [Ev_read (gpos f) count (length got)]),
       Val (map Some got ++ skipn (length got) buf))
    else
      (mkWorld (mkIfstream (contents f) (gpos f) (eofbit f) true (is_open f))
               (metadata w)
               (trace w ++ [Ev_read (gpos f) count 0]),
       Val buf).

Definition close : M unit :=
  fun w =>
    let f := file w in
    (set_file (mkIfstream (contents f) (gpos f) (eofbit f) (failbit f) false) w,
     Val tt).

(** Reading [buf[i]]: undefined when the cell holds no value. *)
Definition load (buf : list cell) (i : nat) : M char :=
  match nth_error buf i with
  | Some (Some c) => ret c
  | _ => undefined
  end.

(** [std::string(buf + off, n)] *)
Fixpoint load_string (buf : list cell) (off n : nat) : M std_string :=
  match n with
  | O => ret []
  | S n' =>
      c <- load buf off ;;
      s <- load_string buf (S off) n' ;;
      ret (c :: s)
  end.

(** [buf[i] == c] *)
Definition char_is (buf : list cell) (i : nat) (c : char) : M bool :=
  x <- load buf i ;; ret (Ascii.eqb x c).

(** [decodeSynchsafeInt(buf + off)] *)
Definition decodeSynchsafeInt_at (buf : list cell) (off : nat) : M Z :=
  b0 <- load buf off ;;
  b1 <- load buf (off + 1) ;;
  b2 <- load buf (off + 2) ;;
  b3 <- load buf (off + 3) ;;
  ret (decodeSynchsafeInt b0 b1 b2 b3).

(** The call [parseTextFrame(content)] as [readID3v2Tag] makes it. *)
Definition call_parseTextFrame (content : std_string) : M std_string :=
  log (Call_parseTextFrame content) ;;
  ret (parseTextFrame content).

Definition set_title (s : std_string) : M unit :=
  m <- get_metadata ;; set_metadata (mkMetaData s (artist m) (album m) (year m)).
Definition set_artist (s : std_string) : M unit :=
  m <- get_metadata ;; set_metadata (mkMetaData (title m) s (album m) (year m)).
Definition set_album (s : std_string) : M unit :=
  m <- get_metadata ;; set_metadata (mkMetaData (title m) (artist m) s (year m)).
Definition set_year (s : std_string) : M unit :=
  m <- get_metadata ;; set_metadata (mkMetaData (title m) (artist m) (album m) s).

(** ** hasID3v2Tag *)
Definition hasID3v2Tag : M bool :=
  seekg 0 ios_beg ;;
  header <- read (uninitialised 3) 3 ;;
  char_is header 0 "I"%char &&& char_is header 1 "D"%char &&& char_is header 2 "3"%char.

(** ** readID3v1Tag *)
Definition readID3v1Tag : M unit :=
  log Call_readID3v1Tag ;;
  seekg (-128) ios_end ;;
  buffer <- read (uninitialised 128) 128 ;;
  tagged <- char_is buffer 0 "T"%char &&& char_is buffer 1 "A"%char
            &&& char_is buffer 2 "G"%char ;;
  if tagged then
    s <- load_string buffer 3 30 ;; set_title s ;;
    s <- load_string buffer 33 30 ;; set_artist s ;;
    s <- load_string buffer 63 30 ;; set_album s ;;
    s <- load_string buffer 93 4 ;; set_year s
  else
    throw (runtime_error "No ID3v1 tag found in file.").

(** ** readID3v2Tag *)

(** One pass through the body of the [while] loop, up to the test before
    [break]; returns the updated [bytesRead]. *)
Definition frame_body (bytesRead : Z) : M Z :=
  frameHeader <- read (uninitialised 10) 10 ;;
  let bytesRead := int_add bytesRead 10 in
  frameID <- load_string frameHeader 0 4 ;;
  frameSize <- decodeSynchsafeInt_at frameHeader 4 ;;
  let bytesRead := int_add bytesRead frameSize in
  (if frameSize >? 0 then
     frameContent <- read (zeroed (Z.to_nat frameSize)) (Z.to_nat frameSize) ;;
     content <- load_string frameContent 0 (Z.to_nat frameSize) ;;
     if std_string_eqb frameID (lit "TIT2") then
       s <- call_parseTextFrame content ;; set_title s
     else if std_string_eqb frameID (lit "TPE1") then
       s <- call_parseTextFrame content ;; set_artist s
     else if std_string_eqb frameID (lit "TALB") then
       s <- call_parseTextFrame content ;; set_album s
     else if std_string_eqb frameID (lit "TYER") then
       s <- call_parseTextFrame content ;; set_year s
     else ret tt
   else ret tt) ;;
  ret bytesRead.

(** [while (bytesRead < tagSize) { body; if (bytesRead >= tagSize) break; }]
    with one unit of fuel per pass; returns the final [bytesRead]. *)
Fixpoint frame_loop (fuel : nat) (tagSize bytesRead : Z) : M Z :=
  if bytesRead <? tagSize then
    match fuel with
    | O => out_of_fuel
    | S fuel' =>
        bytesRead <- frame_body bytesRead ;;
        if bytesRead >=? tagSize then ret bytesRead
        else frame_loop fuel' tagSize bytesRead
    end
  else ret bytesRead.

(** Each pass adds at least 10 to [bytesRead], so [tagSize] passes are more
    than the loop can make ([returns_frame_loop]); more fuel changes nothing
    ([frame_loop_more_fuel]). *)
Definition readID3v2Tag : M unit :=
  log Call_readID3v2Tag ;;
  seekg 0 ios_beg ;;
  header <- read (uninitialised 10) 10 ;;
  tagSize <- decodeSynchsafeInt_at header 6 ;;
  let bytesRead := 10 in
  _ <- frame_loop (Z.to_nat tagSize) tagSize bytesRead ;;
  ret tt.

(** ** readMetadata *)

(** The file just opened: position 0, no state bit set. *)
Definition opened (data : std_string) : world :=
  mkWorld (mkIfstream data 0 false false true) empty_MetaData [].

(** The body of [readMetadata] once the file is open. *)
Definition readMetadata_body : M MetaData :=
  tagged <- hasID3v2Tag ;;
  (if tagged : bool then readID3v2Tag else readID3v1Tag) ;;
  close ;;
  get_metadata.

Definition run_readMetadata (data : std_string) : world * outcome MetaData :=
  readMetadata_body (opened data).

(** The files that can be opened, by path. *)
Definition filesystem := string -> option std_string.

Definition readMetadata (fs : filesystem) (filepath : string)
  : outcome MetaData :=
  match fs filepath with
  | None => Throw (runtime_error (String.append "Could not open file: " filepath))
  | Some data => snd (run_readMetadata data)
  end.

(** ** The layout of an ID3v2 tag

    The bytes of a tag as the reader expects them, used to state what the
    reader returns on a tag made of complete frames. *)

(** The 10-byte tag header: "ID3", three version and flag bytes, four size
    bytes. *)
Definition tag_header (version_flags size_field : std_string) : std_string :=
  lit "ID3" ++ version_flags ++ size_field.

Record frame := mkFrame {
  frame_id : std_string;
  frame_size : std_string;
  frame_flags : std_string;
  frame_payload : std_string
}.

Definition frame_bytes (f : frame) : std_string :=
  frame_id f ++ frame_size f ++ frame_flags f ++ frame_payload f.

Definition frames_bytes (fs : list frame) : std_string :=
  concat (map frame_bytes fs).

(** The value of a 4-byte size field. *)
Definition size_of_field (s : std_string) : option Z :=
  match s with
  | [b0; b1; b2; b3] => Some (decodeSynchsafeInt b0 b1 b2 b3)
  | _ => None
  end.

(** A complete frame: 4 identifier bytes, a size field that decodes to the
    length of the payload, 2 flag bytes. *)
Definition complete_frame (f : frame) : Prop :=
  length (frame_id f) = 4%nat /\
  size_of_field (frame_size f) = Some (Z.of_nat (length (frame_payload f))) /\
  length (frame_flags f) = 2%nat.

(** [bytesRead] after the frames [fs], starting from [b]. *)
Definition count_after (b : Z) (fs : list frame) : Z :=
  fold_left (fun c f => c + 10 + Z.of_nat (length (frame_payload f))) fs b.

(** What the loop body does to the record on a complete frame. *)
Definition apply_frame (m : MetaData) (f : frame) : MetaData :=
  match frame_payload f with
  | [] => m
  | _ :: _ =>
      let s := parseTextFrame (frame_payload f) in
      if std_string_eqb (frame_id f) (lit "TIT2") then
        mkMetaData s (artist m) (album m) (year m)
      else if std_string_eqb (frame_id f) (lit "TPE1") then
        mkMetaData (title m) s (album m) (year m)
      else if std_string_eqb (frame_id f) (lit "TALB") then
        mkMetaData (title m) (artist m) s (year m)
      else if std_string_eqb (frame_id f) (lit "TYER") then
        mkMetaData (title m) (artist m) (album m) s
      else m
  end.

(** The bytes of a list of 2-byte code units. *)
Definition pairs_bytes (ps : list (char * char)) : std_string :=
  flat_map (fun p => [fst p; snd p]) ps.

(** The chars from the stream's position to the end of the file. *)
Definition remaining (w : world) : std_string :=
  skipn (gpos (file w)) (contents (file w)).

(** The last 128 bytes of a file. *)
Definition last_128 (data : std_string) : std_string :=
  skipn (length data - 128) data.

(** The events of a trace that are stream reads reaching past offset
    [limit] of the file. *)
Definition read_past (limit : nat) (e : event) : bool :=
  match e with
  | Ev_read pos _ gcount => (limit <? pos + gcount)%nat
  | _ => false
  end.

Definition is_parse_call (e : event) : bool :=
  match e with
  | Call_parseTextFrame _ => true
  | _ => false
  end.

(** A file system with one file. *)
Definition single_file (path : string) (data : std_string) : filesystem :=
  fun p => if String.eqb p path then Some data else None.

(** ** Traces *)

(** [emits S m]: running [m] appends events to the trace, all of them in
    [S], and removes none. *)
Definition emits {A} (S : event -> Prop) (m : M A) : Prop :=
  forall w, exists evs,
    trace (fst (m w)) = trace w ++ evs /\ Forall S evs.


(** The events of the modern reader: its own call, stream reads and calls
    of the text decoder. *)
Definition modern_event (e : event) : Prop :=
  match e with
  | Ev_read _ _ _ | Call_readID3v2Tag | Call_parseTextFrame _ => True
  | _ => False
  end.

(** ** Definitions used in the statements *)

(** The stream after a read of [n] chars that the file served in full. *)
Definition after_read (data : std_string) (n : nat) : ifstream :=
  mkIfstream data n false false true.

(** What [readMetadata] runs after the detector. *)
Definition after_detector (tagged : bool) : M MetaData :=
  (if tagged then readID3v2Tag else readID3v1Tag) ;;
  close ;;
  get_metadata.

(** The record the legacy reader fills from a 128-byte block. *)
Definition legacy_fields (block : std_string) : MetaData :=
  mkMetaData (firstn 30 (skipn 3 block)) (firstn 30 (skipn 33 block))
             (firstn 30 (skipn 63 block)) (firstn 4 (skipn 93 block)).

Definition tag_test (block : std_string) : bool :=
  (Ascii.eqb (nth 0 block NUL) "T" && Ascii.eqb (nth 1 block NUL) "A"
   && Ascii.eqb (nth 2 block NUL) "G")%bool.

(** Whether the reader dispatches on the identifier. *)
Definition recognised (frameID : std_string) : bool :=
  (std_string_eqb frameID (lit "TIT2") || std_string_eqb frameID (lit "TPE1")
   || std_string_eqb frameID (lit "TALB")
   || std_string_eqb frameID (lit "TYER"))%bool.

(** The events of one pass of the loop over a complete frame that starts at
    offset [pos] of the file. *)
Definition frame_events (pos : nat) (f : frame) : list event :=
  Ev_read pos 10 10 ::
  match frame_payload f with
  | [] => []
  | _ :: _ =>
      Ev_read (pos + 10) (length (frame_payload f)) (length (frame_payload f))
      :: (if recognised (frame_id f)
          then [Call_parseTextFrame (frame_payload f)] else [])
  end.

(** [returns P m]: from any state, [m] neither throws nor runs out of fuel,
    and a value it returns satisfies [P]. *)
Definition returns {A} (P : A -> Prop) (m : M A) : Prop :=
  forall w,
    match snd (m w) with
    | Val a => P a
    | Undefined => True
    | Throw _ | OutOfFuel => False
    end.

Definition anything {A} (_ : A) : Prop := True.


(** ** Sample files *)

Definition byte (n : nat) : char := ascii_of_nat n.

(** [s] followed by NULs up to [n] chars. *)
Definition pad (n : nat) (s : std_string) : std_string :=
  s ++ repeat NUL (n - length s).

(** A tag that declares size 42 and holds one TIT2 frame of declared size
    6, followed by the bytes 00 'H' 'e' 'l' 'l' 'o' 00 and by zero padding
    up to the 52 bytes of header and tag. *)
Definition hello_size6 : std_string :=
  tag_header [byte 3; byte 0; byte 0] [byte 0; byte 0; byte 0; byte 42]
  ++ lit "TIT2" ++ [byte 0; byte 0; byte 0; byte 6] ++ [byte 0; byte 0]
  ++ [byte 0] ++ lit "Hello" ++ [byte 0]
  ++ repeat (byte 0) 25.

(** The TIT2 frame of declared size 7 that holds 00 'H' 'e' 'l' 'l' 'o' 00,
    and a frame of zero bytes as padding. *)
Definition hello_frame : frame :=
  mkFrame (lit "TIT2") [byte 0; byte 0; byte 0; byte 7] [byte 0; byte 0]
          ([byte 0] ++ lit "Hello" ++ [byte 0]).

Definition padding_frame : frame :=
  mkFrame [byte 0; byte 0; byte 0; byte 0] [byte 0; byte 0; byte 0; byte 0]
          [byte 0; byte 0] [].

Definition size_42 : std_string := [byte 0; byte 0; byte 0; byte 42].

(** A tag that declares size 26 and holds a TIT2 frame of declared size 6;
    the file ends after 3 bytes of its payload. *)
Definition cut_frame : frame :=
  mkFrame (lit "TIT2") [byte 0; byte 0; byte 0; byte 6] [byte 0; byte 0]
          ([byte 0] ++ lit "He" ++ [NUL; NUL; NUL]).

Definition cut_file : std_string :=
  tag_header [byte 3; byte 0; byte 0] [byte 0; byte 0; byte 0; byte 26]
  ++ lit "TIT2" ++ [byte 0; byte 0; byte 0; byte 6] ++ [byte 0; byte 0]
  ++ [byte 0] ++ lit "He".

(** A tag that declares size 20, so that it ends at offset 30 of the file,
    and holds a TIT2 frame of declared size 16; audio data follows the
    tag. *)
Definition overrun_file : std_string :=
  tag_header [byte 3; byte 0; byte 0] [byte 0; byte 0; byte 0; byte 20]
  ++ lit "TIT2" ++ [byte 0; byte 0; byte 0; byte 16] ++ [byte 0; byte 0]
  ++ [byte 0] ++ lit "SongTitle"
  ++ lit "MPEG-AUDIO-DATA".

(** A file that ends with an ID3v1 tag. *)
Definition legacy_file : std_string :=
  lit "MPEG-AUDIO-DATA"
  ++ lit "TAG" ++ pad 30 (lit "Title") ++ pad 30 (lit "Artist")
  ++ pad 30 (lit "Album") ++ lit "1999" ++ repeat NUL 31.

(** A file with neither tag. *)
Definition untagged_file : std_string := repeat "a"%char 130.

(** The stream stopped before a TIT2 frame header whose size field is 0. *)
Definition at_empty_frame : world :=
  mkWorld (mkIfstream (tag_header [byte 3; byte 0; byte 0] size_42
                       ++ lit "TIT2" ++ [byte 0; byte 0; byte 0; byte 0]
                       ++ [byte 0; byte 0] ++ lit "rest")
                      10 false false true)
          empty_MetaData [].

(** The stream over [overrun_file] after the 10 bytes of the tag header. *)
Definition after_overrun_header : world :=
  mkWorld (mkIfstream overrun_file 10 false false true) empty_MetaData [].

(** ** Definitions used in further statements *)

(** The char whose [unsigned char] value is [z], for [0 <= z < 256]. *)
Definition char_of_value (z : Z) : char := ascii_of_N (Z.to_N z).

(** The char [c] with its high bit cleared. *)
Definition clear_high_bit (c : char) : char :=
  char_of_value (uchar_value c mod 128).

(** The four base-128 digits of [n], most significant first: the size
    field with all high bits clear that stands for [n]. *)
Definition synchsafe_field (n : Z) : std_string :=
  [char_of_value (n / 2 ^ 21 mod 128); char_of_value (n / 2 ^ 14 mod 128);
   char_of_value (n / 2 ^ 7 mod 128); char_of_value (n mod 128)].

(** Text of chars below 256 as UTF-16 code units, high byte first and low
    byte first. *)
Definition utf16be (s : std_string) : std_string :=
  flat_map (fun c => [NUL; c]) s.

Definition utf16le (s : std_string) : std_string :=
  flat_map (fun c => [c; NUL]) s.

(** [raises_only E m]: from any state, [m] does not run out of fuel and
    throws no exception outside [E]. *)
Definition raises_only {A} (E : exception -> Prop) (m : M A) : Prop :=
  forall w,
    match snd (m w) with
    | Throw e => E e
    | OutOfFuel => False
    | Val _ | Undefined => True
    end.

(** The exception of the legacy reader. *)
Definition no_ID3v1_tag (e : exception) : Prop :=
  e = runtime_error "No ID3v1 tag found in file.".

(** The field of the record that a frame identifier stands for. *)
Definition field_of (frameID : std_string)
  : option (MetaData -> std_string) :=
  if std_string_eqb frameID (lit "TIT2") then Some title
  else if std_string_eqb frameID (lit "TPE1") then Some artist
  else if std_string_eqb frameID (lit "TALB") then Some album
  else if std_string_eqb frameID (lit "TYER") then Some year
  else None.

(** A frame that the reader decodes: a recognised identifier and a payload
    of at least one byte. *)
Definition contributes (f : frame) : bool :=
  (recognised (frame_id f) &&
   match frame_payload f with [] => false | _ :: _ => true end)%bool.

(** The frame [f] with other flag bytes. *)
Definition reflag (flags : frame -> std_string) (f : frame) : frame :=
  mkFrame (frame_id f) (frame_size f) (flags f) (frame_payload f).

(** ** More sample files *)

(** A file too short for an ID3v1 trailer. *)
Definition short_file : std_string := lit "not an mp3 file".

(** A file that ends inside the tag header. *)
Definition truncated_header_file : std_string := lit "ID3" ++ [byte 3; byte 0].

(** A tag that declares size 0, before a file that ends with an ID3v1 tag. *)
Definition empty_tag_file : std_string :=
  tag_header [byte 3; byte 0; byte 0] [byte 0; byte 0; byte 0; byte 0]
  ++ legacy_file.

(** A TPE1 frame, and a frame the reader does not know. *)
Definition artist_frame : frame :=
  mkFrame (lit "TPE1") [byte 0; byte 0; byte 0; byte 5] [byte 0; byte 0]
          ([byte 0] ++ lit "Band").

Definition comment_frame : frame :=
  mkFrame (lit "COMM") [byte 0; byte 0; byte 0; byte 3] [byte 0; byte 0]
          (lit "abc").

Definition version_3 : std_string := [byte 3; byte 0; byte 0].

(** * Properties *)

(** ** decodeSynchsafeInt *)

Lemma wrap_int_id z : - 2 ^ 31 <= z < 2 ^ 31 -> wrap_int z = z.
Proof.
  intros H. unfold wrap_int.
  rewrite Z.mod_small by lia. lia.
Qed.

Lemma uchar_value_range c : 0 <= uchar_value c < 256.
Proof.
  unfold uchar_value.
  pose proof (N_ascii_bounded c) as H.
  lia.
Qed.

(** Masking with 0x7F gives the low seven bits whether [char] is signed or
    not. *)
Lemma mask_char c :
  Z.land (char_value c) 0x7F = Z.land (uchar_value c) 0x7F /\
  0 <= Z.land (char_value c) 0x7F < 128.
Proof.
  destruct c as [[] [] [] [] [] [] [] []]; vm_compute; repeat split; congruence.
Qed.

Lemma lor_below a b n :
  0 <= n -> 0 <= a < 2 ^ n -> 0 <= b < 2 ^ n -> 0 <= Z.lor a b < 2 ^ n.
Proof.
  intros Hn Ha Hb. split.
  - apply Z.lor_nonneg. lia.
  - destruct (Z.eq_dec a 0) as [->|Ha0]; [rewrite Z.lor_0_l; lia|].
    destruct (Z.eq_dec b 0) as [->|Hb0]; [rewrite Z.lor_0_r; lia|].
    apply Z.log2_lt_pow2.
    + assert (0 <= Z.lor a b) by (apply Z.lor_nonneg; lia).
      assert (Z.lor a b <> 0) by (rewrite Z.lor_eq_0_iff; tauto).
      lia.
    + rewrite Z.log2_lor by lia.
      apply Z.max_lub_lt; apply Z.log2_lt_pow2; lia.
Qed.

Lemma shl_mask_below x k :
  0 <= x < 128 -> 0 <= k <= 21 ->
  int_shl x k = Z.shiftl x k /\ 0 <= Z.shiftl x k < 2 ^ 28.
Proof.
  intros Hx Hk.
  assert (B : 0 <= Z.shiftl x k < 2 ^ 28).
  { rewrite Z.shiftl_mul_pow2 by lia.
    assert (0 < 2 ^ k) by (apply Z.pow_pos_nonneg; lia).
    assert (2 ^ k <= 2 ^ 21) by (apply Z.pow_le_mono_r; lia).
    change (2 ^ 28) with (128 * 2 ^ 21). nia. }
  split; [|exact B].
  unfold int_shl. apply wrap_int_id.
  change (2 ^ 31) with (8 * 2 ^ 28). lia.
Qed.

(** The decoded value is built from the low seven bits of each byte; no
    shift leaves the range of [int]. *)
Lemma decodeSynchsafeInt_masked (b0 b1 b2 b3 : char) :
  decodeSynchsafeInt b0 b1 b2 b3 =
    Z.lor (Z.lor (Z.lor (Z.shiftl (Z.land (uchar_value b0) 0x7F) 21)
                        (Z.shiftl (Z.land (uchar_value b1) 0x7F) 14))
                 (Z.shiftl (Z.land (uchar_value b2) 0x7F) 7))
          (Z.land (uchar_value b3) 0x7F) /\
  0 <= decodeSynchsafeInt b0 b1 b2 b3 < 2 ^ 28.
Proof.
  unfold decodeSynchsafeInt.
  destruct (mask_char b0) as [E0 R0], (mask_char b1) as [E1 R1],
           (mask_char b2) as [E2 R2], (mask_char b3) as [E3 R3].
  destruct (shl_mask_below _ 21 R0 ltac:(lia)) as [S0 B0].
  destruct (shl_mask_below _ 14 R1 ltac:(lia)) as [S1 B1].
  destruct (shl_mask_below _ 7 R2 ltac:(lia)) as [S2 B2].
  rewrite S0, S1, S2. split.
  - now rewrite E0, E1, E2, E3.
  - repeat apply lor_below; try lia.
Qed.

(** C4: for every four bytes, high bit set or not, [decodeSynchsafeInt]
    returns [(b0 & 0x7F) << 21 | (b1 & 0x7F) << 14 | (b2 & 0x7F) << 7 |
    (b3 & 0x7F)] of the byte values, a non-negative number below 2^28 that
    fits the [int] it is returned in; the function is total. *)
Theorem decodeSynchsafeInt_spec (b0 b1 b2 b3 : char) :
  decodeSynchsafeInt b0 b1 b2 b3 =
    Z.lor (Z.lor (Z.lor (Z.shiftl (Z.land (uchar_value b0) 0x7F) 21)
                        (Z.shiftl (Z.land (uchar_value b1) 0x7F) 14))
                 (Z.shiftl (Z.land (uchar_value b2) 0x7F) 7))
          (Z.land (uchar_value b3) 0x7F) /\
  0 <= decodeSynchsafeInt b0 b1 b2 b3 < 2 ^ 28.
Proof. apply decodeSynchsafeInt_masked. Qed.

(** ** parseTextFrame *)

Lemma loop_indices_even k : forall fuel i,
  (k <= fuel)%nat ->
  loop_indices fuel i (i + 2 * k) = map (fun j => (i + 2 * j)%nat) (seq 0 k).
Proof.
  induction k as [|k IH]; intros fuel i Hf.
  - destruct fuel; simpl; [reflexivity|].
    replace (i + 0)%nat with i by lia.
    now rewrite Nat.ltb_irrefl.
  - destruct fuel as [|fuel]; [lia|].
    cbn [loop_indices].
    assert (L : (i <? i + 2 * S k)%nat = true) by (apply Nat.ltb_lt; lia).
    rewrite L.
    replace (i + 2 * S k)%nat with ((i + 2) + 2 * k)%nat by lia.
    rewrite IH by lia.
    cbn [seq map]. rewrite <- seq_shift, map_map.
    f_equal; [lia|].
    apply map_ext. intros j. lia.
Qed.

Lemma loop_indices_odd k : forall fuel i,
  (S k <= fuel)%nat ->
  loop_indices fuel i (i + 2 * k + 1) =
    map (fun j => (i + 2 * j)%nat) (seq 0 (S k)).
Proof.
  induction k as [|k IH]; intros fuel i Hf.
  - destruct fuel as [|fuel]; [lia|].
    cbn [loop_indices].
    assert (L : (i <? i + 2 * 0 + 1)%nat = true) by (apply Nat.ltb_lt; lia).
    rewrite L.
    assert (E : loop_indices fuel (i + 2) (i + 2 * 0 + 1) = []).
    { destruct fuel; [reflexivity|]. cbn [loop_indices].
      assert (G : (i + 2 <? i + 2 * 0 + 1)%nat = false)
        by (apply Nat.ltb_ge; lia).
      now rewrite G. }
    rewrite E. cbn. f_equal. lia.
  - destruct fuel as [|fuel]; [lia|].
    cbn [loop_indices].
    assert (L : (i <? i + 2 * S k + 1)%nat = true) by (apply Nat.ltb_lt; lia).
    rewrite L.
    replace (i + 2 * S k + 1)%nat with ((i + 2) + 2 * k + 1)%nat by lia.
    rewrite IH by lia.
    change (seq 0 (S (S k))) with (0%nat :: seq 1 (S k)).
    cbn [map]. rewrite <- seq_shift, map_map.
    f_equal; [lia|].
    apply map_ext. intros j. lia.
Qed.

Lemma pairs_bytes_length ps : length (pairs_bytes ps) = (2 * length ps)%nat.
Proof.
  induction ps as [|p ps IH]; [reflexivity|].
  cbn [pairs_bytes flat_map app length] in *.
  fold (pairs_bytes ps). rewrite IH. lia.
Qed.

(** The positions indexed on a text of [k] pairs: 1, 3, ..., 2k-1. *)
Lemma utf16_positions_even ps :
  utf16_positions (pairs_bytes ps) =
    map (fun j => (2 * j + 1)%nat) (seq 0 (length ps)).
Proof.
  unfold utf16_positions. rewrite pairs_bytes_length.
  rewrite (loop_indices_even (length ps) _ 0%nat) by lia.
  rewrite map_map. apply map_ext. intros j. lia.
Qed.

(** The positions indexed on a text of [k] pairs and one more byte:
    1, 3, ..., 2k-1 and 2k+1. *)
Lemma utf16_positions_odd ps c :
  utf16_positions (pairs_bytes ps ++ [c]) =
    map (fun j => (2 * j + 1)%nat) (seq 0 (length ps))
    ++ [(2 * length ps + 1)%nat].
Proof.
  unfold utf16_positions.
  rewrite length_app, pairs_bytes_length. cbn [length].
  rewrite (loop_indices_odd (length ps) _ 0%nat) by lia.
  rewrite seq_S, !map_app, map_map. cbn [map].
  f_equal; first [apply map_ext; intros j; lia | f_equal; lia].
Qed.

(** No position indexed lies beyond the size of the text, so [string_at]
    is used only where [operator[]] is defined. *)
Lemma utf16_positions_in_range textContent :
  Forall (fun p => (p <= length textContent)%nat) (utf16_positions textContent).
Proof.
  unfold utf16_positions.
  set (n := length textContent).
  apply Forall_forall. intros p Hp.
  apply in_map_iff in Hp. destruct Hp as [i [<- Hi]].
  destruct (Nat.Even_or_Odd n) as [[k Hk]|[k Hk]].
  - replace (loop_indices n 0 n) with (loop_indices n 0 (0 + 2 * k)) in Hi
      by (f_equal; lia).
    rewrite (loop_indices_even k n 0%nat) in Hi by lia.
    apply in_map_iff in Hi. destruct Hi as [j [<- Hj]].
    apply in_seq in Hj. lia.
  - replace (loop_indices n 0 n) with (loop_indices n 0 (0 + 2 * k + 1)) in Hi
      by (f_equal; lia).
    rewrite (loop_indices_odd k n 0%nat) in Hi by lia.
    apply in_map_iff in Hi. destruct Hi as [j [<- Hj]].
    apply in_seq in Hj. lia.
Qed.

Lemma fold_left_snoc {A B} (g : A -> B) (l : list A) : forall acc,
  fold_left (fun acc x => acc ++ [g x]) l acc = acc ++ map g l.
Proof.
  induction l as [|x l IH]; intros acc; cbn.
  - now rewrite app_nil_r.
  - rewrite IH, <- app_assoc. reflexivity.
Qed.

(** Indexing the odd positions of the bytes of [ps] gives the second byte
    of each pair. *)
Lemma second_bytes ps : forall tail,
  map (fun j => string_at (pairs_bytes ps ++ tail) (2 * j + 1))
      (seq 0 (length ps)) = map snd ps.
Proof.
  induction ps as [|p ps IH]; intros tail; [reflexivity|].
  cbn [length seq map]. f_equal.
  rewrite <- seq_shift, map_map, <- (IH tail).
  apply map_ext. intros j.
  unfold string_at.
  replace (2 * S j + 1)%nat with (S (S (2 * j + 1))) by lia.
  reflexivity.
Qed.

Lemma parseTextFrame_utf16 textContent :
  parseTextFrame ("001"%char :: textContent) =
    map (string_at textContent) (utf16_positions textContent).
Proof.
  unfold parseTextFrame.
  change (uchar_value "001"%char) with 1.
  cbn [Z.eqb Pos.eqb substr skipn].
  now rewrite fold_left_snoc.
Qed.

(** C3: on a payload whose first byte is 1 and whose remaining bytes are N
    complete 2-byte units, [parseTextFrame] returns the N chars that are the
    second byte of each unit, in order. *)
Theorem parseTextFrame_utf16_pairs (ps : list (char * char)) :
  parseTextFrame ("001"%char :: pairs_bytes ps) = map snd ps /\
  length (parseTextFrame ("001"%char :: pairs_bytes ps)) = length ps.
Proof.
  assert (E : parseTextFrame ("001"%char :: pairs_bytes ps) = map snd ps).
  { rewrite parseTextFrame_utf16, utf16_positions_even, map_map.
    rewrite <- (app_nil_r (pairs_bytes ps)).
    apply second_bytes. }
  split; [exact E|].
  now rewrite E, length_map.
Qed.

(** C10: on a payload whose first byte is 1 and whose text has the odd
    length 2k+1, the last position the pair loop indexes is 2k+1, the size
    of the text, where [operator[]] yields the NUL after the last char; the
    result has k+1 chars, the second bytes of the k pairs and then NUL. *)
Theorem parseTextFrame_utf16_odd (ps : list (char * char)) (c : char) :
  let textContent := pairs_bytes ps ++ [c] in
  let k := length ps in
  length textContent = (2 * k + 1)%nat /\
  utf16_positions textContent =
    map (fun j => (2 * j + 1)%nat) (seq 0 k) ++ [(2 * k + 1)%nat] /\
  string_at textContent (2 * k + 1) = NUL /\
  parseTextFrame ("001"%char :: textContent) = map snd ps ++ [NUL] /\
  length (parseTextFrame ("001"%char :: textContent)) = (k + 1)%nat.
Proof.
  intros textContent k.
  assert (L : length textContent = (2 * k + 1)%nat).
  { unfold textContent. rewrite length_app, pairs_bytes_length.
    cbn [length]. lia. }
  assert (Z0 : string_at textContent (2 * k + 1) = NUL).
  { unfold string_at. apply nth_overflow. lia. }
  assert (E : parseTextFrame ("001"%char :: textContent) = map snd ps ++ [NUL]).
  { rewrite parseTextFrame_utf16. unfold textContent.
    rewrite utf16_positions_odd, map_app, map_map.
    rewrite second_bytes. cbn [map]. f_equal. f_equal. exact Z0. }
  repeat split; try assumption.
  - apply utf16_positions_odd.
  - rewrite E, length_app, length_map. reflexivity.
Qed.

(** ** Running the stream operations *)

Lemma bind_val {A B} (m : M A) (k : A -> M B) w w' a :
  m w = (w', Val a) -> bind m k w = k a w'.
Proof. intros H. unfold bind. now rewrite H. Qed.

Lemma bind_undefined {A B} (m : M A) (k : A -> M B) w w' :
  m w = (w', Undefined) -> bind m k w = (w', Undefined).
Proof. intros H. unfold bind. now rewrite H. Qed.

Lemma bind_throw {A B} (m : M A) (k : A -> M B) w w' e :
  m w = (w', Throw e) -> bind m k w = (w', Throw e).
Proof. intros H. unfold bind. now rewrite H. Qed.

Lemma firstn_skipn_cons {A} (d : A) (s : list A) : forall off n,
  (off < length s)%nat ->
  firstn (S n) (skipn off s) = nth off s d :: firstn n (skipn (S off) s).
Proof.
  induction s as [|x s IH]; intros off n H; cbn [length] in H; [lia|].
  destruct off as [|off]; [reflexivity|].
  cbn [skipn nth]. apply IH. lia.
Qed.

Lemma nth_error_filled (s : std_string) (tail : list cell) i :
  (i < length s)%nat ->
  nth_error (map Some s ++ tail) i = Some (Some (nth i s NUL)).
Proof.
  intros H.
  rewrite nth_error_app1 by (now rewrite length_map).
  rewrite nth_error_map, (nth_error_nth' s NUL H). reflexivity.
Qed.

(** Loading from cells a read has filled. *)
Lemma load_filled (s : std_string) (tail : list cell) i :
  (i < length s)%nat -> load (map Some s ++ tail) i = ret (nth i s NUL).
Proof.
  intros H. unfold load. now rewrite nth_error_filled.
Qed.

Lemma load_string_filled (s : std_string) (tail : list cell) n : forall off,
  (off + n <= length s)%nat ->
  load_string (map Some s ++ tail) off n = ret (firstn n (skipn off s)).
Proof.
  induction n as [|n IH]; intros off H; cbn [load_string].
  - reflexivity.
  - rewrite load_filled by lia. rewrite IH by lia.
    rewrite (firstn_skipn_cons NUL) by lia. reflexivity.
Qed.

Lemma char_is_filled (s : std_string) (tail : list cell) i c :
  (i < length s)%nat ->
  char_is (map Some s ++ tail) i c = ret (Ascii.eqb (nth i s NUL) c).
Proof.
  intros H. unfold char_is. now rewrite load_filled.
Qed.

Lemma decodeSynchsafeInt_at_filled (s : std_string) (tail : list cell) off :
  (off + 4 <= length s)%nat ->
  decodeSynchsafeInt_at (map Some s ++ tail) off =
    ret (decodeSynchsafeInt (nth off s NUL) (nth (off + 1) s NUL)
                            (nth (off + 2) s NUL) (nth (off + 3) s NUL)).
Proof.
  intros H. unfold decodeSynchsafeInt_at.
  now rewrite !load_filled by lia.
Qed.

Lemma firstn_exact {A} (a b : list A) : firstn (length a) (a ++ b) = a.
Proof.
  rewrite firstn_app, Nat.sub_diag, firstn_all. cbn. apply app_nil_r.
Qed.

(** A read the file can serve in full. *)
Lemma read_full buf chunk rest w :
  good (file w) = true ->
  remaining w = chunk ++ rest ->
  read buf (length chunk) w =
    (mkWorld (mkIfstream (contents (file w))
                         (gpos (file w) + length chunk) false false
                         (is_open (file w)))
             (metadata w)
             (trace w ++ [Ev_read (gpos (file w)) (length chunk)
                                  (length chunk)]),
     Val (map Some chunk ++ skipn (length chunk) buf)).
Proof.
  intros G R. unfold read, remaining in *.
  rewrite G, R, firstn_exact, Nat.ltb_irrefl. reflexivity.
Qed.

Lemma remaining_after chunk rest f n :
  skipn (gpos f) (contents f) = chunk ++ rest ->
  n = length chunk ->
  skipn (gpos f + n) (contents f) = rest.
Proof.
  intros R ->.
  rewrite Nat.add_comm, <- skipn_skipn, R.
  rewrite skipn_app, Nat.sub_diag, skipn_all. reflexivity.
Qed.

Lemma skipn_uninitialised n : skipn n (uninitialised n) = [].
Proof. apply skipn_all2. unfold uninitialised. now rewrite repeat_length. Qed.

Lemma skipn_zeroed n : skipn n (zeroed n) = [].
Proof. apply skipn_all2. unfold zeroed. now rewrite repeat_length. Qed.

(** ** What a computation adds to the trace *)

Lemma emits_nothing {A} (S : event -> Prop) (m : M A) :
  (forall w, trace (fst (m w)) = trace w) -> emits S m.
Proof.
  intros H w. exists []. rewrite H, app_nil_r. auto.
Qed.

Lemma emits_bind {A B} S (m : M A) (k : A -> M B) :
  emits S m -> (forall a, emits S (k a)) -> emits S (bind m k).
Proof.
  intros Hm Hk w. unfold bind.
  destruct (Hm w) as [e1 [E1 F1]].
  destruct (m w) as [w1 [a|e| |]]; cbn [fst] in *; try (exists e1; tauto).
  destruct (Hk a w1) as [e2 [E2 F2]].
  exists (e1 ++ e2). split.
  - now rewrite E2, E1, app_assoc.
  - apply Forall_app. tauto.
Qed.

Lemma emits_ret {A} S (a : A) : emits S (ret a).
Proof. now apply emits_nothing. Qed.

Lemma emits_throw {A} S e : emits S (@throw A e).
Proof. now apply emits_nothing. Qed.

Lemma emits_undefined {A} S : emits S (@undefined A).
Proof. now apply emits_nothing. Qed.

Lemma emits_out_of_fuel {A} S : emits S (@out_of_fuel A).
Proof. now apply emits_nothing. Qed.

Lemma emits_log (S : event -> Prop) e : S e -> emits S (log e).
Proof. intros H w. exists [e]. cbn. auto. Qed.

Lemma emits_seekg S off dir : emits S (seekg off dir).
Proof.
  apply emits_nothing. intros w. unfold seekg.
  destruct (failbit (file w)); [reflexivity|].
  destruct (_ <? 0); reflexivity.
Qed.

Lemma emits_read (S : event -> Prop) buf n :
  (forall pos count gcount, S (Ev_read pos count gcount)) ->
  emits S (read buf n).
Proof.
  intros H w. unfold read.
  destruct (good (file w)); eexists; cbn [fst trace]; eauto.
Qed.

Lemma emits_close S : emits S close.
Proof. now apply emits_nothing. Qed.

Lemma emits_get_metadata S : emits S get_metadata.
Proof. now apply emits_nothing. Qed.

Lemma emits_set_metadata S m : emits S (set_metadata m).
Proof. now apply emits_nothing. Qed.

Lemma emits_load S buf i : emits S (load buf i).
Proof.
  unfold load. destruct (nth_error buf i) as [[c|]|];
    auto using emits_ret, emits_undefined.
Qed.

Create HintDb emits.
#[local] Hint Resolve emits_ret emits_throw emits_undefined emits_out_of_fuel
  emits_seekg emits_close emits_get_metadata emits_set_metadata emits_load
  : emits.
#[local] Hint Extern 1 (emits _ (bind _ _)) =>
  apply emits_bind; [|intros ?] : emits.
#[local] Hint Extern 1 (emits _ (if ?b then _ else _)) => destruct b : emits.
#[local] Hint Extern 2 (emits _ (read _ _)) =>
  apply emits_read; intros; cbn : emits.
#[local] Hint Extern 2 (emits _ (log _)) => apply emits_log; cbn : emits.

Lemma emits_load_string S buf n : forall off, emits S (load_string buf off n).
Proof.
  induction n as [|n IH]; intros off; cbn [load_string]; auto with emits.
Qed.
#[local] Hint Resolve emits_load_string : emits.

Lemma emits_char_is S buf i c : emits S (char_is buf i c).
Proof. unfold char_is. auto with emits. Qed.
#[local] Hint Resolve emits_char_is : emits.

Lemma emits_and_then S a b : emits S a -> emits S b -> emits S (a &&& b).
Proof. intros Ha Hb. unfold and_then. auto with emits. Qed.
#[local] Hint Resolve emits_and_then : emits.

Lemma emits_decodeSynchsafeInt_at S buf off :
  emits S (decodeSynchsafeInt_at buf off).
Proof. unfold decodeSynchsafeInt_at. auto 10 with emits. Qed.
#[local] Hint Resolve emits_decodeSynchsafeInt_at : emits.

Lemma emits_set_title S s : emits S (set_title s).
Proof. unfold set_title. auto with emits. Qed.

Lemma emits_set_artist S s : emits S (set_artist s).
Proof. unfold set_artist. auto with emits. Qed.

Lemma emits_set_album S s : emits S (set_album s).
Proof. unfold set_album. auto with emits. Qed.

Lemma emits_set_year S s : emits S (set_year s).
Proof. unfold set_year. auto with emits. Qed.
#[local] Hint Resolve emits_set_title emits_set_artist emits_set_album
  emits_set_year : emits.

(** Splits a goal [emits S m] along the binds and branches of [m]. *)
Ltac emits_split :=
  repeat match goal with
         | |- emits _ (bind _ _) => apply emits_bind; [|intros ?]
         | |- emits _ (if ?b then _ else _) => destruct b
         end;
  auto with emits.


Lemma emits_call_parseTextFrame content :
  emits modern_event (call_parseTextFrame content).
Proof. unfold call_parseTextFrame. emits_split. Qed.
#[local] Hint Resolve emits_call_parseTextFrame : emits.

Lemma emits_frame_body b : emits modern_event (frame_body b).
Proof. unfold frame_body. emits_split. Qed.
#[local] Hint Resolve emits_frame_body : emits.

Lemma emits_frame_loop tagSize fuel : forall b,
  emits modern_event (frame_loop fuel tagSize b).
Proof.
  induction fuel as [|fuel IH]; intros b; cbn [frame_loop]; emits_split.
Qed.
#[local] Hint Resolve emits_frame_loop : emits.


(** ** hasID3v2Tag *)

Lemma hasID3v2Tag_three a b c rest :
  hasID3v2Tag (opened (a :: b :: c :: rest)) =
    (mkWorld (after_read (a :: b :: c :: rest) 3) empty_MetaData
             [Ev_read 0 3 3],
     Val (Ascii.eqb a "I" && Ascii.eqb b "D" && Ascii.eqb c "3")%bool).
Proof.
  unfold hasID3v2Tag, opened, bind, and_then, bind, char_is, bind.
  cbn.
  destruct (Ascii.eqb a "I"), (Ascii.eqb b "D"), (Ascii.eqb c "3");
    reflexivity.
Qed.


Lemma starts_with_ID3 a b c rest :
  (Ascii.eqb a "I" && Ascii.eqb b "D" && Ascii.eqb c "3")%bool = true <->
  firstn 3 (a :: b :: c :: rest) = lit "ID3".
Proof.
  cbn [firstn lit list_ascii_of_string].
  rewrite !andb_true_iff, !Ascii.eqb_eq.
  split; [intros [[-> ->] ->]; reflexivity | intros E; inversion E; auto].
Qed.





Lemma run_readMetadata_unfold data :
  run_readMetadata data = bind hasID3v2Tag after_detector (opened data).
Proof. reflexivity. Qed.





(** ** readID3v1Tag *)

Lemma tag_test_spec block :
  (3 <= length block)%nat ->
  tag_test block = true <-> firstn 3 block = lit "TAG".
Proof.
  intros H. destruct block as [|a [|b [|c rest]]]; cbn [length] in H; try lia.
  unfold tag_test. cbn [nth firstn lit list_ascii_of_string].
  rewrite !andb_true_iff, !Ascii.eqb_eq.
  split; [intros [[-> ->] ->]; reflexivity | intros E; inversion E; auto].
Qed.

Lemma last_128_length data :
  (128 <= length data)%nat -> length (last_128 data) = 128%nat.
Proof. intros H. unfold last_128. rewrite length_skipn. lia. Qed.

Lemma seekg_end_128 w :
  failbit (file w) = false ->
  (128 <= length (contents (file w)))%nat ->
  seekg (-128) ios_end w =
    (set_file (mkIfstream (contents (file w))
                          (length (contents (file w)) - 128) false false
                          (is_open (file w))) w,
     Val tt).
Proof.
  intros F L. unfold seekg. rewrite F.
  assert (T : (Z.of_nat (length (contents (file w))) + -128 <? 0) = false)
    by (apply Z.ltb_ge; lia).
  rewrite T. repeat f_equal. lia.
Qed.

(** The legacy reader on a file of at least 128 bytes: it tests the first
    three bytes of the last 128 and either fills the four fields or throws. *)
Lemma readID3v1Tag_run w :
  failbit (file w) = false ->
  (128 <= length (contents (file w)))%nat ->
  let block := last_128 (contents (file w)) in
  exists w',
    readID3v1Tag w =
      (w', if tag_test block then Val tt
           else Throw (runtime_error "No ID3v1 tag found in file.")) /\
    metadata w' = (if tag_test block then legacy_fields block
                   else metadata w).
Proof.
  intros F L block.
  pose proof (last_128_length _ L) as BL. fold block in BL.
  unfold readID3v1Tag.
  rewrite (bind_val _ _ w _ tt eq_refl).
  match goal with |- context [bind _ _ ?x] => set (w0 := x) end.
  rewrite (bind_val _ _ _ _ _ (seekg_end_128 w0 F L)).
  match goal with |- context [bind _ _ ?x] => set (w1 := x) end.
  assert (R : remaining w1 = block ++ []) by (now rewrite app_nil_r).
  pose proof (read_full (uninitialised 128) block [] w1 eq_refl R) as RD.
  rewrite BL in RD.
  rewrite (bind_val _ _ _ _ _ RD).
  rewrite !char_is_filled by lia.
  rewrite !load_string_filled by lia.
  unfold tag_test, and_then, bind, ret.
  destruct (Ascii.eqb (nth 0 block NUL) "T"),
           (Ascii.eqb (nth 1 block NUL) "A"),
           (Ascii.eqb (nth 2 block NUL) "G");
    cbn; eexists; split; reflexivity.
Qed.

Lemma run_readMetadata_legacy data :
  (128 <= length data)%nat ->
  firstn 3 data <> lit "ID3" ->
  snd (run_readMetadata data) =
    if tag_test (last_128 data) then Val (legacy_fields (last_128 data))
    else Throw (runtime_error "No ID3v1 tag found in file.").
Proof.
  intros L N.
  destruct data as [|a [|b [|c rest]]]; cbn [length] in L; try lia.
  set (data := a :: b :: c :: rest) in *.
  rewrite run_readMetadata_unfold.
  rewrite (bind_val _ _ _ _ _ (hasID3v2Tag_three a b c rest)).
  assert (T : (Ascii.eqb a "I" && Ascii.eqb b "D" && Ascii.eqb c "3")%bool
              = false).
  { destruct (_ && _)%bool eqn:E; [|reflexivity].
    apply starts_with_ID3 with (rest := rest) in E. contradiction. }
  rewrite T. fold data.
  set (w := mkWorld (after_read data 3) empty_MetaData [Ev_read 0 3 3]).
  destruct (readID3v1Tag_run w eq_refl L) as [w' [E M]].
  cbn [file contents after_read w] in E, M.
  unfold after_detector.
  destruct (tag_test (last_128 data)).
  - rewrite (bind_val _ _ _ _ _ E). cbn. now rewrite M.
  - now rewrite (bind_throw _ _ _ _ _ E).
Qed.

(** C5: when the last 128 bytes of the file begin with "TAG", the legacy
    reader returns normally with title, artist, album and year set to bytes
    3..33, 33..63, 63..93 and 93..97 of that block: 30, 30, 30 and 4 bytes
    copied as they are, trailing NULs and padding included.  [readMetadata]
    returns that record when the file does not start with "ID3". *)
Theorem readID3v1Tag_fields (data : std_string) :
  (128 <= length data)%nat ->
  firstn 3 (last_128 data) = lit "TAG" ->
  let block := last_128 data in
  let m := mkMetaData (firstn 30 (skipn 3 block)) (firstn 30 (skipn 33 block))
                      (firstn 30 (skipn 63 block)) (firstn 4 (skipn 93 block))
  in
  (forall w, contents (file w) = data -> failbit (file w) = false ->
     exists w', readID3v1Tag w = (w', Val tt) /\ metadata w' = m) /\
  (firstn 3 data <> lit "ID3" -> snd (run_readMetadata data) = Val m) /\
  length (title m) = 30%nat /\ length (artist m) = 30%nat /\
  length (album m) = 30%nat /\ length (year m) = 4%nat.
Proof.
  intros L T block m.
  pose proof (last_128_length data L) as BL. fold block in BL.
  assert (TT : tag_test block = true) by (apply tag_test_spec; [lia|exact T]).
  split; [|split].
  - intros w C F. rewrite <- C in L.
    destruct (readID3v1Tag_run w F L) as [w' [E M]].
    rewrite C in E, M. fold block in E, M. rewrite TT in E, M.
    exists w'. split; assumption.
  - intros N. rewrite (run_readMetadata_legacy data L N).
    fold block. now rewrite TT.
  - cbn [title artist album year m].
    rewrite !length_firstn, !length_skipn, BL. repeat split; lia.
Qed.

(** C7: when the file does not start with "ID3" and its last 128 bytes do
    not begin with "TAG", [readMetadata] throws the runtime error "No ID3v1
    tag found in file." to its caller. *)
Theorem readMetadata_no_ID3v1_tag
  (fs : filesystem) (filepath : string) (data : std_string) :
  fs filepath = Some data ->
  (128 <= length data)%nat ->
  firstn 3 data <> lit "ID3" ->
  firstn 3 (last_128 data) <> lit "TAG" ->
  readMetadata fs filepath =
    Throw (runtime_error "No ID3v1 tag found in file.").
Proof.
  intros O L N T. unfold readMetadata. rewrite O.
  rewrite (run_readMetadata_legacy data L N).
  pose proof (last_128_length data L) as BL.
  destruct (tag_test (last_128 data)) eqn:E; [|reflexivity].
  apply tag_test_spec in E; [contradiction|lia].
Qed.

(** ** readID3v2Tag on complete frames *)

Lemma bind_ret_l {A B} (a : A) (k : A -> M B) : bind (ret a) k = k a.
Proof. reflexivity. Qed.

Lemma int_add_id a b :
  - 2 ^ 31 <= a + b < 2 ^ 31 -> int_add a b = a + b.
Proof. apply wrap_int_id. Qed.

Lemma complete_frame_shape f :
  complete_frame f ->
  exists i0 i1 i2 i3 s0 s1 s2 s3 f0 f1,
    frame_id f = [i0; i1; i2; i3] /\
    frame_size f = [s0; s1; s2; s3] /\
    frame_flags f = [f0; f1] /\
    decodeSynchsafeInt s0 s1 s2 s3 = Z.of_nat (length (frame_payload f)).
Proof.
  destruct f as [id sz fl pl]. unfold complete_frame. cbn.
  intros [Hid [Hsz Hfl]].
  destruct id as [|i0 [|i1 [|i2 [|i3 [|]]]]]; try discriminate.
  destruct fl as [|f0 [|f1 [|]]]; try discriminate.
  destruct sz as [|s0 [|s1 [|s2 [|s3 [|]]]]]; try discriminate.
  inversion Hsz.
  exists i0, i1, i2, i3, s0, s1, s2, s3, f0, f1. auto.
Qed.

Lemma complete_frame_size f :
  complete_frame f -> Z.of_nat (length (frame_payload f)) < 2 ^ 28.
Proof.
  intros C. destruct (complete_frame_shape f C)
    as (i0 & i1 & i2 & i3 & s0 & s1 & s2 & s3 & f0 & f1 & _ & _ & _ & D).
  rewrite <- D. apply decodeSynchsafeInt_masked.
Qed.

(** One pass of the loop over a complete frame. *)
Lemma frame_body_complete f rest w b :
  complete_frame f ->
  good (file w) = true ->
  remaining w = frame_bytes f ++ rest ->
  - 2 ^ 31 <= b < 2 ^ 30 ->
  exists w',
    frame_body b w =
      (w', Val (b + 10 + Z.of_nat (length (frame_payload f)))) /\
    metadata w' = apply_frame (metadata w) f /\
    good (file w') = true /\
    remaining w' = rest /\
    gpos (file w') = (gpos (file w) + length (frame_bytes f))%nat /\
    contents (file w') = contents (file w) /\
    trace w' = trace w ++ frame_events (gpos (file w)) f.
Proof.
  intros C G R B.
  pose proof (complete_frame_size f C) as SZ.
  destruct (complete_frame_shape f C)
    as (i0 & i1 & i2 & i3 & s0 & s1 & s2 & s3 & f0 & f1 & Ei & Es & Ef & D).
  destruct f as [id sz fl pl]. cbn [frame_id frame_size frame_flags
    frame_payload] in *. subst id sz fl.
  unfold frame_bytes in *. cbn [frame_id frame_size frame_flags
    frame_payload app] in *.
  set (hdr := [i0; i1; i2; i3; s0; s1; s2; s3; f0; f1]).
  assert (R' : remaining w = hdr ++ (pl ++ rest)) by exact R.
  pose proof (read_full (uninitialised 10) hdr (pl ++ rest) w G R') as RD.
  unfold frame_body.
  change (length hdr) with 10%nat in RD.
  rewrite (bind_val _ _ _ _ _ RD).
  rewrite load_string_filled by (cbn; lia).
  rewrite decodeSynchsafeInt_at_filled by (cbn; lia).
  rewrite !bind_ret_l.
  cbn [hdr nth Nat.add firstn skipn].
  rewrite D.
  rewrite (int_add_id b 10) by lia.
  rewrite int_add_id by lia.
  match goal with |- context [bind _ _ ?x] => set (w1 := x) end.
  assert (G1 : good (file w1) = true) by reflexivity.
  assert (R1 : remaining w1 = pl ++ rest).
  { unfold remaining, w1. cbn [file gpos contents].
    apply (remaining_after hdr); [exact R'|reflexivity]. }
  destruct pl as [|p pl].
  - (* frameSize = 0 *)
    exists w1. repeat split; try reflexivity; exact R1.
  - (* frameSize > 0 *)
    set (payload := p :: pl) in *.
    assert (P : (Z.of_nat (length payload) >? 0) = true)
      by (apply Z.gtb_lt; cbn [length payload]; lia).
    rewrite P, Nat2Z.id.
    pose proof (read_full (zeroed (length payload)) payload rest w1 G1 R1)
      as RD1.
    unfold bind at 1. unfold bind at 1.
    rewrite RD1.
    match type of RD1 with _ = (?x, _) => set (w2 := x) in * end.
    assert (R2 : remaining w2 = rest).
    { unfold remaining, w2. cbn [file gpos contents].
      apply (remaining_after payload); [exact R1|reflexivity]. }
    assert (P2 : gpos (file w2) =
                 (gpos (file w) + length (hdr ++ payload))%nat).
    { rewrite length_app. cbn [w2 w1 file gpos length hdr]. lia. }
    assert (T2 : trace w2 = trace w ++
                 [Ev_read (gpos (file w)) 10 10;
                  Ev_read (gpos (file w) + 10) (length payload)
                          (length payload)]).
    { cbn [w2 w1 trace file gpos]. now rewrite <- app_assoc. }
    assert (M2 : metadata w2 = metadata w) by reflexivity.
    assert (G2 : good (file w2) = true) by reflexivity.
    assert (C2 : contents (file w2) = contents (file w)) by reflexivity.
    rewrite load_string_filled by lia.
    rewrite bind_ret_l.
    cbn [skipn]. rewrite firstn_all.
    unfold apply_frame, frame_events, recognised.
    cbn [frame_payload frame_id payload].
    fold payload. fold hdr.
    unfold call_parseTextFrame, set_title, set_artist, set_album, set_year.
    clearbody w2 payload.
    destruct (std_string_eqb [i0; i1; i2; i3] (lit "TIT2"));
      [|destruct (std_string_eqb [i0; i1; i2; i3] (lit "TPE1"));
        [|destruct (std_string_eqb [i0; i1; i2; i3] (lit "TALB"));
          [|destruct (std_string_eqb [i0; i1; i2; i3] (lit "TYER"))]]];
      (eexists; split; [reflexivity|]);
      cbn [metadata file trace orb]; rewrite ?M2;
      (repeat split;
       first [ reflexivity | exact R2 | exact P2 | exact G2 | exact C2
             | rewrite T2, <- ?app_assoc; reflexivity ]).
Qed.

Lemma count_after_cons b f fs :
  count_after b (f :: fs) =
    count_after (b + 10 + Z.of_nat (length (frame_payload f))) fs.
Proof. reflexivity. Qed.

Lemma count_after_app b fs gs :
  count_after b (fs ++ gs) = count_after (count_after b fs) gs.
Proof. apply fold_left_app. Qed.

(** Each frame adds at least its 10 header bytes to the count. *)
Lemma count_after_lower fs : forall b,
  b + 10 * Z.of_nat (length fs) <= count_after b fs.
Proof.
  induction fs as [|f fs IH]; intros b.
  - cbn. lia.
  - rewrite count_after_cons.
    specialize (IH (b + 10 + Z.of_nat (length (frame_payload f)))).
    cbn [length]. lia.
Qed.

Lemma frames_bytes_cons f fs :
  frames_bytes (f :: fs) = frame_bytes f ++ frames_bytes fs.
Proof. reflexivity. Qed.

Lemma frames_bytes_app fs gs :
  frames_bytes (fs ++ gs) = frames_bytes fs ++ frames_bytes gs.
Proof. unfold frames_bytes. now rewrite map_app, concat_app. Qed.

(** The loop over complete frames that all end below [tagSize]: it makes
    one pass per frame and goes on from the count after them. *)
Lemma frame_loop_walk tagSize fs : forall fuel w b rest,
  Forall complete_frame fs ->
  good (file w) = true ->
  remaining w = frames_bytes fs ++ rest ->
  - 2 ^ 31 <= b ->
  tagSize <= 2 ^ 28 ->
  count_after b fs < tagSize ->
  exists w',
    frame_loop (length fs + fuel) tagSize b w =
      frame_loop fuel tagSize (count_after b fs) w' /\
    metadata w' = fold_left apply_frame fs (metadata w) /\
    good (file w') = true /\
    remaining w' = rest /\
    contents (file w') = contents (file w).
Proof.
  induction fs as [|f fs IH]; intros fuel w b rest C G R B T L.
  - exists w. repeat split; assumption.
  - inversion C as [|? ? Cf Cfs]; subst.
    rewrite count_after_cons in L.
    set (b1 := b + 10 + Z.of_nat (length (frame_payload f))) in *.
    pose proof (count_after_lower fs b1) as Low.
    assert (B1 : b1 < tagSize) by lia.
    rewrite frames_bytes_cons, <- app_assoc in R.
    destruct (frame_body_complete f _ w b Cf G R ltac:(lia))
      as (w1 & E1 & M1 & G1 & R1 & _ & C1 & _).
    destruct (IH fuel w1 b1 rest Cfs G1 R1 ltac:(lia) T L)
      as (w' & E' & M' & G' & R' & C').
    exists w'. repeat split; try assumption.
    + cbn [length Nat.add frame_loop].
      assert (Lt : (b <? tagSize) = true) by (apply Z.ltb_lt; lia).
      rewrite Lt, (bind_val _ _ _ _ _ E1).
      fold b1.
      assert (Ge : (b1 >=? tagSize) = false)
        by (rewrite Z.geb_leb; apply Z.leb_gt; lia).
      rewrite Ge. exact E'.
    + rewrite M'. cbn [fold_left]. now rewrite M1.
    + now rewrite C'.
Qed.

(** The loop over complete frames of which the last one brings the count
    to [tagSize]: it returns after that frame. *)
Lemma frame_loop_complete tagSize fs f fuel w b rest :
  Forall complete_frame (fs ++ [f]) ->
  good (file w) = true ->
  remaining w = frames_bytes (fs ++ [f]) ++ rest ->
  - 2 ^ 31 <= b ->
  tagSize <= 2 ^ 28 ->
  count_after b fs < tagSize <= count_after b (fs ++ [f]) ->
  (length fs < fuel)%nat ->
  exists w',
    frame_loop fuel tagSize b w = (w', Val (count_after b (fs ++ [f]))) /\
    metadata w' = fold_left apply_frame (fs ++ [f]) (metadata w) /\
    remaining w' = rest.
Proof.
  intros C G R B T [L U] F.
  apply Forall_app in C. destruct C as [Cfs Cf].
  inversion Cf as [|? ? Cf' _]; subst.
  rewrite frames_bytes_app, <- app_assoc in R.
  destruct fuel as [|fuel]; [lia|].
  replace (S fuel) with (length fs + S (fuel - length fs))%nat by lia.
  destruct (frame_loop_walk tagSize fs (S (fuel - length fs)) w b _
              Cfs G R B T L) as (w1 & E1 & M1 & G1 & R1 & _).
  rewrite E1.
  pose proof (count_after_lower fs b) as Low.
  unfold frames_bytes in R1. cbn [map concat] in R1.
  rewrite app_nil_r in R1.
  destruct (frame_body_complete f rest w1 (count_after b fs) Cf' G1 R1
              ltac:(lia)) as (w2 & E2 & M2 & _ & R2 & _).
  rewrite count_after_app in U |- *. cbn [count_after fold_left] in U |- *.
  exists w2. repeat split.
  - cbn [frame_loop].
    assert (Lt : (count_after b fs <? tagSize) = true)
      by (apply Z.ltb_lt; lia).
    rewrite Lt, (bind_val _ _ _ _ _ E2).
    assert (Ge : (count_after b fs + 10 +
                  Z.of_nat (length (frame_payload f)) >=? tagSize) = true)
      by (rewrite Z.geb_leb; apply Z.leb_le; exact U).
    now rewrite Ge.
  - rewrite fold_left_app. cbn [fold_left]. now rewrite M2, M1.
  - exact R2.
Qed.

Lemma seekg_beg w :
  failbit (file w) = false ->
  seekg 0 ios_beg w =
    (set_file (mkIfstream (contents (file w)) 0 false false
                          (is_open (file w))) w,
     Val tt).
Proof. intros F. unfold seekg. now rewrite F. Qed.

Lemma size_field_shape sz tagSize :
  size_of_field sz = Some tagSize ->
  exists s0 s1 s2 s3,
    sz = [s0; s1; s2; s3] /\ tagSize = decodeSynchsafeInt s0 s1 s2 s3.
Proof.
  destruct sz as [|s0 [|s1 [|s2 [|s3 [|]]]]]; try discriminate.
  intros E. inversion E. now exists s0, s1, s2, s3.
Qed.

(** The modern reader up to its loop: on a stream that has not failed and
    holds a 10-byte tag header it enters the loop with count 10, just after
    the header. *)
Lemma readID3v2Tag_header vf sz tagSize body w :
  length vf = 3%nat ->
  size_of_field sz = Some tagSize ->
  failbit (file w) = false ->
  contents (file w) = tag_header vf sz ++ body ->
  exists w2,
    readID3v2Tag w =
      bind (frame_loop (Z.to_nat tagSize) tagSize 10) (fun _ => ret tt) w2 /\
    metadata w2 = metadata w /\
    good (file w2) = true /\
    remaining w2 = body /\
    gpos (file w2) = 10%nat.
Proof.
  intros V S F D.
  destruct (size_field_shape sz tagSize S) as (s0 & s1 & s2 & s3 & -> & ->).
  destruct vf as [|v0 [|v1 [|v2 [|]]]]; try discriminate. clear V.
  set (hdr := tag_header [v0; v1; v2] [s0; s1; s2; s3]) in *.
  unfold readID3v2Tag.
  rewrite (bind_val _ _ w _ tt eq_refl).
  match goal with |- context [bind _ _ ?x] => set (w0 := x) end.
  rewrite (bind_val _ _ _ _ _ (seekg_beg w0 F)).
  match goal with |- context [bind _ _ ?x] => set (w1 := x) end.
  assert (R1 : remaining w1 = hdr ++ body) by exact D.
  pose proof (read_full (uninitialised 10) hdr _ w1 eq_refl R1) as RD.
  change (length hdr) with 10%nat in RD.
  rewrite (bind_val _ _ _ _ _ RD).
  match type of RD with _ = (?x, _) => set (w2 := x) in * end.
  rewrite decodeSynchsafeInt_at_filled by (cbn; lia).
  rewrite bind_ret_l.
  cbn [hdr tag_header lit list_ascii_of_string app nth Nat.add].
  exists w2. repeat split; try reflexivity.
  unfold remaining, w2. cbn [file gpos contents].
  apply (remaining_after hdr); [exact R1|reflexivity].
Qed.

(** The modern reader on a tag of complete frames, the last of which brings
    the count to the declared size. *)
Lemma readID3v2Tag_complete vf sz tagSize fs f rest w :
  length vf = 3%nat ->
  size_of_field sz = Some tagSize ->
  Forall complete_frame (fs ++ [f]) ->
  count_after 10 fs < tagSize <= count_after 10 (fs ++ [f]) ->
  failbit (file w) = false ->
  contents (file w) = tag_header vf sz ++ frames_bytes (fs ++ [f]) ++ rest ->
  exists w',
    readID3v2Tag w = (w', Val tt) /\
    metadata w' = fold_left apply_frame (fs ++ [f]) (metadata w).
Proof.
  intros V S C [L U] F D.
  destruct (readID3v2Tag_header vf sz tagSize _ w V S F D)
    as (w2 & E & M2 & G2 & R2 & _).
  destruct (size_field_shape sz tagSize S) as (s0 & s1 & s2 & s3 & _ & TS).
  pose proof (proj2 (decodeSynchsafeInt_masked s0 s1 s2 s3)) as Bd.
  rewrite <- TS in Bd.
  pose proof (count_after_lower fs 10) as Low.
  destruct (frame_loop_complete tagSize fs f (Z.to_nat tagSize) w2 10 rest
              C G2 R2 ltac:(lia) ltac:(lia) (conj L U) ltac:(lia))
    as (w3 & E3 & M3 & _).
  rewrite E, (bind_val _ _ _ _ _ E3).
  exists w3. split; [reflexivity|now rewrite M3, M2].
Qed.

Lemma run_readMetadata_ID3 tl :
  run_readMetadata ("I"%char :: "D"%char :: "3"%char :: tl) =
    after_detector true
      (mkWorld (after_read ("I"%char :: "D"%char :: "3"%char :: tl) 3)
               empty_MetaData [Ev_read 0 3 3]).
Proof.
  rewrite run_readMetadata_unfold.
  now rewrite (bind_val _ _ _ _ _ (hasID3v2Tag_three _ _ _ _)).
Qed.

Lemma after_detector_modern w w' :
  readID3v2Tag w = (w', Val tt) ->
  snd (after_detector true w) = Val (metadata w').
Proof.
  intros E. unfold after_detector. now rewrite (bind_val _ _ _ _ _ E).
Qed.

(** [readMetadata] on such a file returns the record the frames build from
    the empty one. *)
Lemma run_readMetadata_complete vf sz tagSize fs f rest :
  length vf = 3%nat ->
  size_of_field sz = Some tagSize ->
  Forall complete_frame (fs ++ [f]) ->
  count_after 10 fs < tagSize <= count_after 10 (fs ++ [f]) ->
  snd (run_readMetadata
         (tag_header vf sz ++ frames_bytes (fs ++ [f]) ++ rest)) =
    Val (fold_left apply_frame (fs ++ [f]) empty_MetaData).
Proof.
  intros V S C W.
  unfold tag_header. cbn [lit list_ascii_of_string app].
  rewrite run_readMetadata_ID3.
  match goal with |- context [after_detector true ?x] => set (w := x) end.
  destruct (readID3v2Tag_complete vf sz tagSize fs f rest w V S C W
              eq_refl eq_refl) as (w' & E & M).
  rewrite (after_detector_modern _ _ E). now rewrite M.
Qed.

(** ** Which frames set a field *)

Lemma std_string_eqb_eq a : forall b, std_string_eqb a b = true <-> a = b.
Proof.
  induction a as [|x a IH]; intros [|y b]; cbn; try (split; congruence).
  rewrite andb_true_iff, Ascii.eqb_eq, IH.
  split; [intros [-> ->]; reflexivity | intros E; inversion E; auto].
Qed.

(** A frame whose identifier is not [id], or whose payload is empty, leaves
    the field of [id] as it was. *)
Ltac frame_keeps_field :=
  let f := fresh "f" in
  let m := fresh "m" in
  let H := fresh "H" in
  intros m f H; unfold apply_frame;
  destruct (frame_payload f) as [|? ?] eqn:?; [reflexivity|];
  repeat match goal with
         | |- context [if std_string_eqb ?a ?b then _ else _] =>
             let E := fresh "E" in
             destruct (std_string_eqb a b) eqn:E;
             [try (apply std_string_eqb_eq in E; apply H in E; discriminate)|]
         end;
  try reflexivity.

Lemma apply_frame_keeps_title : forall m f,
  (frame_id f = lit "TIT2" -> frame_payload f = []) ->
  title (apply_frame m f) = title m.
Proof. frame_keeps_field. Qed.

Lemma apply_frame_keeps_artist : forall m f,
  (frame_id f = lit "TPE1" -> frame_payload f = []) ->
  artist (apply_frame m f) = artist m.
Proof. frame_keeps_field. Qed.

Lemma apply_frame_keeps_album : forall m f,
  (frame_id f = lit "TALB" -> frame_payload f = []) ->
  album (apply_frame m f) = album m.
Proof. frame_keeps_field. Qed.

Lemma apply_frame_keeps_year : forall m f,
  (frame_id f = lit "TYER" -> frame_payload f = []) ->
  year (apply_frame m f) = year m.
Proof. frame_keeps_field. Qed.

Lemma fold_keeps {A} (field : MetaData -> A) (id : std_string) :
  (forall m f, (frame_id f = id -> frame_payload f = []) ->
               field (apply_frame m f) = field m) ->
  forall fs m,
    Forall (fun f => frame_id f = id -> frame_payload f = []) fs ->
    field (fold_left apply_frame fs m) = field m.
Proof.
  intros K fs. induction fs as [|f fs IH]; intros m F; [reflexivity|].
  inversion F; subst. cbn [fold_left].
  rewrite IH by assumption. now apply K.
Qed.

Lemma apply_frame_TIT2 m f :
  frame_id f = lit "TIT2" ->
  frame_payload f <> [] ->
  title (apply_frame m f) = parseTextFrame (frame_payload f).
Proof.
  intros I N. unfold apply_frame. rewrite I.
  destruct (frame_payload f); [contradiction|reflexivity].
Qed.

Lemma frames_split_last (fs : list frame) d :
  fs <> [] -> fs = removelast fs ++ [last fs d].
Proof. apply app_removelast_last. Qed.

(** [readMetadata] on a tag of complete frames that the loop walks to the
    last one. *)
Lemma readMetadata_complete
  (fs : filesystem) (filepath : string)
  (vf sz : std_string) (tagSize : Z) (frames : list frame)
  (rest : std_string) :
  fs filepath = Some (tag_header vf sz ++ frames_bytes frames ++ rest) ->
  frames <> [] ->
  length vf = 3%nat ->
  size_of_field sz = Some tagSize ->
  Forall complete_frame frames ->
  count_after 10 (removelast frames) < tagSize <= count_after 10 frames ->
  readMetadata fs filepath =
    Val (fold_left apply_frame frames empty_MetaData).
Proof.
  intros O NE V S C W.
  pose proof (frames_split_last frames (mkFrame [] [] [] []) NE) as Sp.
  unfold readMetadata. rewrite O.
  rewrite Sp in C, W |- *.
  rewrite removelast_last in W.
  now rewrite (run_readMetadata_complete vf sz tagSize _ _ rest V S C W).
Qed.

(** The title is what the decoder makes of the payload of the last TIT2
    frame that has one. *)
Lemma readMetadata_TIT2_decoded
  (fs : filesystem) (filepath : string)
  (vf sz : std_string) (tagSize : Z)
  (before after : list frame) (tit2 : frame) (rest : std_string) :
  let frames := before ++ tit2 :: after in
  fs filepath = Some (tag_header vf sz ++ frames_bytes frames ++ rest) ->
  length vf = 3%nat ->
  size_of_field sz = Some tagSize ->
  Forall complete_frame frames ->
  count_after 10 (removelast frames) < tagSize <= count_after 10 frames ->
  frame_id tit2 = lit "TIT2" ->
  frame_payload tit2 <> [] ->
  Forall (fun f => frame_id f = lit "TIT2" -> frame_payload f = []) after ->
  exists m,
    readMetadata fs filepath = Val m /\
    title m = parseTextFrame (frame_payload tit2).
Proof.
  intros frames O V S C W I N L.
  assert (NE : frames <> []) by (unfold frames; now destruct before).
  rewrite (readMetadata_complete fs filepath vf sz tagSize frames rest
             O NE V S C W).
  eexists. split; [reflexivity|].
  unfold frames. rewrite fold_left_app. cbn [fold_left].
  rewrite (fold_keeps title (lit "TIT2") apply_frame_keeps_title) by exact L.
  now apply apply_frame_TIT2.
Qed.

(** On a TIT2 frame with encoding byte 1 and a text of 2-byte units, the
    title is the second byte of each unit. *)
Lemma readMetadata_TIT2_utf16
  (fs : filesystem) (filepath : string)
  (vf sz : std_string) (tagSize : Z)
  (before after : list frame) (tit2 : frame)
  (ps : list (char * char)) (rest : std_string) :
  let frames := before ++ tit2 :: after in
  fs filepath = Some (tag_header vf sz ++ frames_bytes frames ++ rest) ->
  length vf = 3%nat ->
  size_of_field sz = Some tagSize ->
  Forall complete_frame frames ->
  count_after 10 (removelast frames) < tagSize <= count_after 10 frames ->
  frame_id tit2 = lit "TIT2" ->
  frame_payload tit2 = "001"%char :: pairs_bytes ps ->
  Forall (fun f => frame_id f = lit "TIT2" -> frame_payload f = []) after ->
  exists m, readMetadata fs filepath = Val m /\ title m = map snd ps.
Proof.
  intros frames O V S C W I E L.
  destruct (readMetadata_TIT2_decoded fs filepath vf sz tagSize before after
              tit2 rest O V S C W I ltac:(rewrite E; discriminate) L)
    as (m & R & T).
  exists m. split; [exact R|].
  rewrite T, E, parseTextFrame_utf16, utf16_positions_even, map_map.
  rewrite <- (app_nil_r (pairs_bytes ps)). apply second_bytes.
Qed.

(** A field whose frames all have an empty payload is returned empty. *)
Lemma readMetadata_untouched_fields
  (fs : filesystem) (filepath : string)
  (vf sz : std_string) (tagSize : Z) (frames : list frame)
  (rest : std_string) :
  fs filepath = Some (tag_header vf sz ++ frames_bytes frames ++ rest) ->
  frames <> [] ->
  length vf = 3%nat ->
  size_of_field sz = Some tagSize ->
  Forall complete_frame frames ->
  count_after 10 (removelast frames) < tagSize <= count_after 10 frames ->
  exists m,
    readMetadata fs filepath = Val m /\
    (Forall (fun f => frame_id f = lit "TIT2" -> frame_payload f = []) frames
     -> title m = []) /\
    (Forall (fun f => frame_id f = lit "TPE1" -> frame_payload f = []) frames
     -> artist m = []) /\
    (Forall (fun f => frame_id f = lit "TALB" -> frame_payload f = []) frames
     -> album m = []) /\
    (Forall (fun f => frame_id f = lit "TYER" -> frame_payload f = []) frames
     -> year m = []).
Proof.
  intros O NE V S C W.
  rewrite (readMetadata_complete fs filepath vf sz tagSize frames rest
             O NE V S C W).
  eexists. split; [reflexivity|].
  repeat split; intros F.
  - now rewrite (fold_keeps title _ apply_frame_keeps_title).
  - now rewrite (fold_keeps artist _ apply_frame_keeps_artist).
  - now rewrite (fold_keeps album _ apply_frame_keeps_album).
  - now rewrite (fold_keeps year _ apply_frame_keeps_year).
Qed.

(** C8: on a tag of complete frames that the loop walks to the last one,
    with a TIT2 frame whose payload is the encoding byte 0 followed by the
    bytes P and no later TIT2 frame with a payload, [readMetadata] returns a
    record whose title is P, byte for byte: nothing is trimmed, so a NUL
    that ends P inside the declared frame size stays in the title. *)
Theorem readMetadata_TIT2_title
  (fs : filesystem) (filepath : string)
  (vf sz : std_string) (tagSize : Z)
  (before after : list frame) (tit2 : frame) (P rest : std_string) :
  let frames := before ++ tit2 :: after in
  fs filepath = Some (tag_header vf sz ++ frames_bytes frames ++ rest) ->
  length vf = 3%nat ->
  size_of_field sz = Some tagSize ->
  Forall complete_frame frames ->
  count_after 10 (removelast frames) < tagSize <= count_after 10 frames ->
  frame_id tit2 = lit "TIT2" ->
  frame_payload tit2 = "000"%char :: P ->
  Forall (fun f => frame_id f = lit "TIT2" -> frame_payload f = []) after ->
  exists m, readMetadata fs filepath = Val m /\ title m = P.
Proof.
  intros frames O V S C W I E L.
  destruct (readMetadata_TIT2_decoded fs filepath vf sz tagSize before after
              tit2 rest O V S C W I ltac:(rewrite E; discriminate) L)
    as (m & R & T).
  exists m. split; [exact R|].
  rewrite T, E. reflexivity.
Qed.

(** C9: when the loop reaches a frame header whose size field decodes to 0,
    whatever its identifier (TIT2, TPE1, TALB and TYER included), the pass
    reads the 10 header bytes and nothing else: the record is left as it
    was, so a field still at its default empty value stays empty, no payload
    is read and [parseTextFrame] is not called. *)
Theorem frame_body_empty_frame
  (w : world) (b : Z) (frameID size_field flags rest : std_string) :
  good (file w) = true ->
  length frameID = 4%nat ->
  size_of_field size_field = Some 0 ->
  length flags = 2%nat ->
  remaining w = frameID ++ size_field ++ flags ++ rest ->
  - 2 ^ 31 <= b < 2 ^ 30 ->
  exists w',
    frame_body b w = (w', Val (b + 10)) /\
    metadata w' = metadata w /\
    trace w' = trace w ++ [Ev_read (gpos (file w)) 10 10] /\
    filter is_parse_call (trace w') = filter is_parse_call (trace w) /\
    remaining w' = rest.
Proof.
  intros G I S F R B.
  set (f := mkFrame frameID size_field flags []).
  assert (C : complete_frame f) by (repeat split; assumption).
  assert (R' : remaining w = frame_bytes f ++ rest).
  { unfold frame_bytes, f. cbn [frame_id frame_size frame_flags
      frame_payload]. now rewrite app_nil_r, <- !app_assoc. }
  destruct (frame_body_complete f rest w b C G R' B)
    as (w' & E & M & _ & Rw & _ & _ & T).
  exists w'. cbn [f frame_payload length Z.of_nat] in E.
  rewrite Z.add_0_r in E.
  repeat split; try assumption.
  rewrite T, filter_app. cbn. apply app_nil_r.
Qed.

(** ** A file that ends inside a payload *)

(** A read the file cannot serve in full. *)
Lemma read_short buf chunk n w :
  good (file w) = true ->
  remaining w = chunk ->
  (length chunk < n)%nat ->
  read buf n w =
    (mkWorld (mkIfstream (contents (file w))
                         (gpos (file w) + length chunk) true true
                         (is_open (file w)))
             (metadata w)
             (trace w ++ [Ev_read (gpos (file w)) n (length chunk)]),
     Val (map Some chunk ++ skipn (length chunk) buf)).
Proof.
  intros G R L. unfold read, remaining in *.
  rewrite G, R, firstn_all2 by lia.
  assert (S : (length chunk <? n)%nat = true) by (apply Nat.ltb_lt; lia).
  now rewrite S.
Qed.

Lemma skipn_repeat {A} (x : A) k : forall a,
  skipn a (repeat x (a + k)) = repeat x k.
Proof. induction a as [|a IH]; [reflexivity|exact IH]. Qed.

(** The cells of a zeroed buffer after a short read: the chars read, then
    zeros. *)
Lemma zeroed_after_short (partial : std_string) k :
  map Some partial ++ skipn (length partial) (zeroed (length partial + k)) =
    map Some (partial ++ repeat NUL k) ++ [].
Proof.
  unfold zeroed. now rewrite skipn_repeat, app_nil_r, map_app, map_repeat.
Qed.

(** One pass of the loop over a frame whose header is complete and whose
    payload the file holds only in part: the pass goes on with the bytes
    read followed by the zeros the buffer was created with. *)
Lemma frame_body_truncated f partial k w b :
  complete_frame f ->
  frame_payload f = partial ++ repeat NUL k ->
  (0 < k)%nat ->
  good (file w) = true ->
  remaining w = frame_id f ++ frame_size f ++ frame_flags f ++ partial ->
  - 2 ^ 31 <= b < 2 ^ 30 ->
  exists w',
    frame_body b w =
      (w', Val (b + 10 + Z.of_nat (length (frame_payload f)))) /\
    metadata w' = apply_frame (metadata w) f /\
    failbit (file w') = true /\
    In (Ev_read (gpos (file w) + 10) (length (frame_payload f))
                (length partial)) (trace w').
Proof.
  intros C Pk K G R B.
  pose proof (complete_frame_size f C) as SZ.
  destruct (complete_frame_shape f C)
    as (i0 & i1 & i2 & i3 & s0 & s1 & s2 & s3 & f0 & f1 & Ei & Es & Ef & D).
  destruct f as [id sz fl pl]. cbn [frame_id frame_size frame_flags
    frame_payload] in *. subst id sz fl.
  cbn [app] in R.
  set (hdr := [i0; i1; i2; i3; s0; s1; s2; s3; f0; f1]).
  assert (R' : remaining w = hdr ++ partial) by exact R.
  pose proof (read_full (uninitialised 10) hdr partial w G R') as RD.
  unfold frame_body.
  change (length hdr) with 10%nat in RD.
  rewrite (bind_val _ _ _ _ _ RD).
  rewrite load_string_filled by (cbn; lia).
  rewrite decodeSynchsafeInt_at_filled by (cbn; lia).
  rewrite !bind_ret_l.
  cbn [hdr nth Nat.add firstn skipn].
  rewrite D.
  rewrite (int_add_id b 10) by lia.
  rewrite int_add_id by lia.
  match goal with |- context [bind _ _ ?x] => set (w1 := x) end.
  assert (G1 : good (file w1) = true) by reflexivity.
  assert (R1 : remaining w1 = partial).
  { unfold remaining, w1. cbn [file gpos contents].
    apply (remaining_after hdr); [exact R'|reflexivity]. }
  assert (Len : length pl = (length partial + k)%nat)
    by (now rewrite Pk, length_app, repeat_length).
  assert (P : (Z.of_nat (length pl) >? 0) = true)
    by (apply Z.gtb_lt; lia).
  rewrite P, Nat2Z.id. rewrite Len.
  pose proof (read_short (zeroed (length partial + k)) partial
                (length partial + k) w1 G1 R1 ltac:(lia)) as RD1.
  rewrite zeroed_after_short, <- Pk in RD1.
  unfold bind at 1. unfold bind at 1.
  rewrite RD1.
  match type of RD1 with _ = (?x, _) => set (w2 := x) in * end.
  assert (M2 : metadata w2 = metadata w) by reflexivity.
  assert (F2 : failbit (file w2) = true) by reflexivity.
  assert (T2 : In (Ev_read (gpos (file w) + 10) (length partial + k)
                           (length partial)) (trace w2)).
  { cbn [w2 w1 trace file gpos]. apply in_app_iff. right. now left. }
  rewrite load_string_filled by lia.
  rewrite bind_ret_l.
  cbn [skipn]. rewrite <- Len, firstn_all. rewrite <- Len in T2.
  assert (NE : exists p pl', pl = p :: pl').
  { destruct pl as [|p pl']; [cbn in Len; lia|now exists p, pl']. }
  destruct NE as (p & pl' & Epl).
  assert (AF : forall m,
    apply_frame m (mkFrame [i0; i1; i2; i3] [s0; s1; s2; s3] [f0; f1] pl) =
      if std_string_eqb [i0; i1; i2; i3] (lit "TIT2") then
        mkMetaData (parseTextFrame pl) (artist m) (album m) (year m)
      else if std_string_eqb [i0; i1; i2; i3] (lit "TPE1") then
        mkMetaData (title m) (parseTextFrame pl) (album m) (year m)
      else if std_string_eqb [i0; i1; i2; i3] (lit "TALB") then
        mkMetaData (title m) (artist m) (parseTextFrame pl) (year m)
      else if std_string_eqb [i0; i1; i2; i3] (lit "TYER") then
        mkMetaData (title m) (artist m) (album m) (parseTextFrame pl)
      else m)
    by (intros m; rewrite Epl; reflexivity).
  rewrite AF. clear AF Epl.
  unfold call_parseTextFrame, set_title, set_artist, set_album, set_year.
  clearbody w2.
  destruct (std_string_eqb [i0; i1; i2; i3] (lit "TIT2"));
    [|destruct (std_string_eqb [i0; i1; i2; i3] (lit "TPE1"));
      [|destruct (std_string_eqb [i0; i1; i2; i3] (lit "TALB"));
        [|destruct (std_string_eqb [i0; i1; i2; i3] (lit "TYER"))]]];
    (eexists; split; [reflexivity|]);
    cbn [metadata file trace]; rewrite ?M2;
    (repeat split;
     first [ reflexivity | exact F2 | exact T2
           | apply in_app_iff; left; exact T2 ]).
Qed.

(** The loop over complete frames followed by a frame whose payload the
    file holds only in part and which brings the count to [tagSize]. *)
Lemma frame_loop_truncated tagSize fs f partial k fuel w b :
  Forall complete_frame (fs ++ [f]) ->
  frame_payload f = partial ++ repeat NUL k ->
  (0 < k)%nat ->
  good (file w) = true ->
  remaining w = frames_bytes fs ++
                frame_id f ++ frame_size f ++ frame_flags f ++ partial ->
  - 2 ^ 31 <= b ->
  tagSize <= 2 ^ 28 ->
  count_after b fs < tagSize <= count_after b (fs ++ [f]) ->
  (length fs < fuel)%nat ->
  exists w',
    frame_loop fuel tagSize b w = (w', Val (count_after b (fs ++ [f]))) /\
    metadata w' = fold_left apply_frame (fs ++ [f]) (metadata w) /\
    failbit (file w') = true.
Proof.
  intros C Pk K G R B T [L U] F.
  apply Forall_app in C. destruct C as [Cfs Cf].
  inversion Cf as [|? ? Cf' _]; subst.
  destruct fuel as [|fuel]; [lia|].
  replace (S fuel) with (length fs + S (fuel - length fs))%nat by lia.
  destruct (frame_loop_walk tagSize fs (S (fuel - length fs)) w b _
              Cfs G R B T L) as (w1 & E1 & M1 & G1 & R1 & _).
  rewrite E1.
  pose proof (count_after_lower fs b) as Low.
  destruct (frame_body_truncated f partial k w1 (count_after b fs) Cf' Pk K
              G1 R1 ltac:(lia)) as (w2 & E2 & M2 & F2 & _).
  rewrite count_after_app in U |- *. cbn [count_after fold_left] in U |- *.
  exists w2. repeat split.
  - cbn [frame_loop].
    assert (Lt : (count_after b fs <? tagSize) = true)
      by (apply Z.ltb_lt; lia).
    rewrite Lt, (bind_val _ _ _ _ _ E2).
    assert (Ge : (count_after b fs + 10 +
                  Z.of_nat (length (frame_payload f)) >=? tagSize) = true)
      by (rewrite Z.geb_leb; apply Z.leb_le; exact U).
    now rewrite Ge.
  - rewrite fold_left_app. cbn [fold_left]. now rewrite M2, M1.
  - exact F2.
Qed.

(** ** The loop ends *)

Lemma returns_ret {A} (P : A -> Prop) a : P a -> returns P (ret a).
Proof. intros H w. exact H. Qed.

Lemma returns_undefined {A} (P : A -> Prop) : returns P undefined.
Proof. intros w. exact I. Qed.

Lemma returns_bind {A B} (P : A -> Prop) (Q : B -> Prop) m k :
  returns P m -> (forall a, P a -> returns Q (k a)) -> returns Q (bind m k).
Proof.
  intros Hm Hk w. unfold bind. specialize (Hm w).
  destruct (m w) as [w1 [a|e| |]]; cbn [snd] in *; try tauto.
  now apply Hk.
Qed.

Lemma returns_weaken {A} (P Q : A -> Prop) m :
  returns P m -> (forall a, P a -> Q a) -> returns Q m.
Proof.
  intros Hm PQ w. specialize (Hm w).
  destruct (snd (m w)); auto.
Qed.

Lemma returns_read buf n : returns anything (read buf n).
Proof. intros w. unfold read. now destruct (good (file w)). Qed.

Lemma returns_seekg off dir : returns anything (seekg off dir).
Proof.
  intros w. unfold seekg. destruct (failbit (file w)); [exact I|].
  now destruct (_ <? 0).
Qed.

Lemma returns_log e : returns anything (log e).
Proof. intros w. exact I. Qed.

Lemma returns_load buf i : returns anything (load buf i).
Proof.
  unfold load. destruct (nth_error buf i) as [[c|]|];
    auto using returns_ret, returns_undefined.
  now apply returns_ret.
Qed.

Lemma returns_load_string buf n : forall off,
  returns anything (load_string buf off n).
Proof.
  induction n as [|n IH]; intros off; cbn [load_string].
  - now apply returns_ret.
  - apply (returns_bind anything); [apply returns_load|intros c _].
    apply (returns_bind anything); [apply IH|intros s _].
    now apply returns_ret.
Qed.

(** A decoded size is an [int] in [0, 2^28). *)
Lemma returns_decodeSynchsafeInt_at buf off :
  returns (fun n => 0 <= n < 2 ^ 28) (decodeSynchsafeInt_at buf off).
Proof.
  unfold decodeSynchsafeInt_at.
  repeat (apply (returns_bind anything); [apply returns_load|intros ? _]).
  apply returns_ret, decodeSynchsafeInt_masked.
Qed.

Lemma returns_set_field s :
  returns anything (set_title s) /\ returns anything (set_artist s) /\
  returns anything (set_album s) /\ returns anything (set_year s).
Proof. repeat split; intros w; exact I. Qed.

Lemma returns_call_parseTextFrame content :
  returns anything (call_parseTextFrame content).
Proof. intros w. exact I. Qed.

(** A pass of the loop adds 10 and a decoded size to the count. *)
Lemma returns_frame_body b :
  - 2 ^ 31 <= b < 2 ^ 30 ->
  returns (fun b' => b + 10 <= b' < b + 10 + 2 ^ 28) (frame_body b).
Proof.
  intros B. unfold frame_body.
  apply (returns_bind anything); [apply returns_read|intros frameHeader _].
  apply (returns_bind anything);
    [apply returns_load_string|intros frameID _].
  apply (returns_bind (fun n => 0 <= n < 2 ^ 28));
    [apply returns_decodeSynchsafeInt_at|intros frameSize S].
  apply (returns_bind anything).
  - destruct (frameSize >? 0); [|now apply returns_ret].
    apply (returns_bind anything); [apply returns_read|intros frameContent _].
    apply (returns_bind anything);
      [apply returns_load_string|intros content _].
    destruct (returns_set_field (parseTextFrame content)) as (T & A & L & Y).
    repeat match goal with
           | |- returns _ (if ?c then _ else _) => destruct c
           | |- returns _ (bind (call_parseTextFrame _) _) =>
               apply (returns_bind anything);
               [apply returns_call_parseTextFrame|intros s _]
           end;
      first [ apply returns_set_field | now apply returns_ret ].
  - intros _ _. apply returns_ret.
    rewrite (int_add_id b 10) by lia.
    rewrite int_add_id by lia. lia.
Qed.

(** With a unit of fuel for every 10 bytes that separate the count from
    [tagSize], the loop returns, with a count that has reached [tagSize]
    and exceeds it by less than one frame; a count that has already reached
    [tagSize] is returned as it is. *)
Lemma returns_frame_loop tagSize : forall fuel b,
  - 2 ^ 31 <= b ->
  tagSize <= 2 ^ 28 ->
  tagSize - b <= 10 * Z.of_nat fuel ->
  returns (fun b' => tagSize <= b' /\
                     (tagSize <= b -> b' = b) /\
                     (b < tagSize -> b' < tagSize + 10 + 2 ^ 28))
          (frame_loop fuel tagSize b).
Proof.
  induction fuel as [|fuel IH]; intros b B T F; cbn [frame_loop].
  - assert (E : (b <? tagSize) = false) by (apply Z.ltb_ge; lia).
    rewrite E. apply returns_ret. lia.
  - destruct (b <? tagSize) eqn:E.
    + apply Z.ltb_lt in E.
      apply (returns_bind (fun b' => b + 10 <= b' < b + 10 + 2 ^ 28));
        [apply returns_frame_body; lia|intros b1 B1].
      destruct (b1 >=? tagSize) eqn:G.
      * rewrite Z.geb_leb in G. apply Z.leb_le in G.
        apply returns_ret. lia.
      * rewrite Z.geb_leb in G. apply Z.leb_gt in G.
        apply (returns_weaken _ _ _ (IH b1 ltac:(lia) T ltac:(lia))).
        intros b' (H1 & H2 & H3). lia.
    + apply Z.ltb_ge in E. apply returns_ret. lia.
Qed.

(** A count that has reached [tagSize] ends the loop before any read. *)
Lemma frame_loop_stops fuel tagSize b w :
  tagSize <= b -> frame_loop fuel tagSize b w = (w, Val b).
Proof.
  intros H.
  assert (E : (b <? tagSize) = false) by (apply Z.ltb_ge; lia).
  destruct fuel; cbn [frame_loop]; now rewrite E.
Qed.

(** A count below [tagSize] makes the loop read the next frame header. *)
Lemma frame_loop_goes_on fuel tagSize b w :
  b < tagSize ->
  frame_loop (S fuel) tagSize b w =
    bind (frame_body b)
         (fun b' => if b' >=? tagSize then ret b'
                    else frame_loop fuel tagSize b') w.
Proof.
  intros H.
  assert (E : (b <? tagSize) = true) by (apply Z.ltb_lt; lia).
  cbn [frame_loop]. now rewrite E.
Qed.

(** Fuel beyond what the loop uses does not change what it does. *)
Lemma frame_loop_more_fuel tagSize k : forall fuel b w,
  snd (frame_loop fuel tagSize b w) <> OutOfFuel ->
  frame_loop (fuel + k) tagSize b w = frame_loop fuel tagSize b w.
Proof.
  induction fuel as [|fuel IH]; intros b w H.
  - cbn [frame_loop] in H. destruct (b <? tagSize) eqn:E.
    + now contradiction H.
    + apply Z.ltb_ge in E. cbn [frame_loop Nat.add].
      rewrite frame_loop_stops by lia.
      assert (E' : (b <? tagSize) = false) by (apply Z.ltb_ge; lia).
      now rewrite E'.
  - cbn [frame_loop Nat.add] in *.
    destruct (b <? tagSize); [|reflexivity].
    unfold bind in *.
    destruct (frame_body b w) as [w1 [b1|e| |]]; try reflexivity.
    destruct (b1 >=? tagSize); [reflexivity|].
    now apply IH.
Qed.

(** The modern reader never throws and never runs out of fuel. *)
Lemma returns_readID3v2Tag : returns anything readID3v2Tag.
Proof.
  unfold readID3v2Tag.
  apply (returns_bind anything); [apply returns_log|intros _ _].
  apply (returns_bind anything); [apply returns_seekg|intros _ _].
  apply (returns_bind anything); [apply returns_read|intros header _].
  apply (returns_bind (fun n => 0 <= n < 2 ^ 28));
    [apply returns_decodeSynchsafeInt_at|intros tagSize T].
  apply (returns_bind anything); [|intros _ _; now apply returns_ret].
  apply (returns_weaken _ _ _
           (returns_frame_loop tagSize (Z.to_nat tagSize) 10
              ltac:(lia) ltac:(lia) ltac:(lia))).
  intros b _. exact I.
Qed.

Lemma run_readMetadata_modern_returns data :
  firstn 3 data = lit "ID3" ->
  match snd (run_readMetadata data) with
  | Val _ | Undefined => True
  | Throw _ | OutOfFuel => False
  end.
Proof.
  intros H.
  destruct data as [|a [|b [|c rest]]]; try discriminate.
  cbn [firstn lit list_ascii_of_string] in H. inversion H; subst.
  rewrite run_readMetadata_ID3.
  assert (R : returns anything (after_detector true)).
  { unfold after_detector.
    apply (returns_bind anything); [apply returns_readID3v2Tag|intros _ _].
    intros w. exact I. }
  specialize (R (mkWorld (after_read ("I"%char :: "D"%char :: "3"%char
                                        :: rest) 3)
                         empty_MetaData [Ev_read 0 3 3])).
  destruct (snd _); auto.
Qed.

(** ** Where the reads of the loop begin *)










(** C2 as the code has it: when the file ends inside the payload of the
    frame that brings the count to the declared tag size, [readMetadata]
    raises nothing and returns the record built from the short read, the
    missing payload bytes taken as NUL; and on no file that starts with
    "ID3" does [readMetadata] throw. *)
Theorem readMetadata_short_payload
  (fs : filesystem) (filepath : string)
  (vf sz : std_string) (tagSize : Z)
  (frames : list frame) (f : frame) (partial : std_string) (k : nat) :
  fs filepath =
    Some (tag_header vf sz ++ frames_bytes frames ++
          frame_id f ++ frame_size f ++ frame_flags f ++ partial) ->
  length vf = 3%nat ->
  size_of_field sz = Some tagSize ->
  Forall complete_frame (frames ++ [f]) ->
  frame_payload f = partial ++ repeat NUL k ->
  (0 < k)%nat ->
  count_after 10 frames < tagSize <= count_after 10 (frames ++ [f]) ->
  readMetadata fs filepath =
    Val (fold_left apply_frame (frames ++ [f]) empty_MetaData) /\
  (forall data e, firstn 3 data = lit "ID3" ->
                  snd (run_readMetadata data) <> Throw e).
Proof.
  intros O V S C Pk K [L U].
  split.
  2:{ intros data e H E.
      pose proof (run_readMetadata_modern_returns data H) as R.
      now rewrite E in R. }
  unfold readMetadata. rewrite O.
  unfold tag_header. cbn [lit list_ascii_of_string app].
  rewrite run_readMetadata_ID3.
  match goal with |- context [after_detector true ?x] => set (w := x) end.
  destruct (readID3v2Tag_header vf sz tagSize _ w V S eq_refl eq_refl)
    as (w2 & E & M2 & G2 & R2 & _).
  destruct (size_field_shape sz tagSize S) as (s0 & s1 & s2 & s3 & _ & TS).
  pose proof (proj2 (decodeSynchsafeInt_masked s0 s1 s2 s3)) as Bd.
  rewrite <- TS in Bd.
  pose proof (count_after_lower frames 10) as Low.
  destruct (frame_loop_truncated tagSize frames f partial k
              (Z.to_nat tagSize) w2 10 C Pk K G2 R2 ltac:(lia) ltac:(lia)
              (conj L U) ltac:(lia)) as (w3 & E3 & M3 & _).
  assert (RT : readID3v2Tag w = (w3, Val tt))
    by (now rewrite E, (bind_val _ _ _ _ _ E3)).
  rewrite (after_detector_modern _ _ RT). now rewrite M3, M2.
Qed.

(** ** The properties on sample files *)



Lemma readID3v1Tag_fields_witness :
  snd (run_readMetadata legacy_file) =
    Val (mkMetaData (pad 30 (lit "Title")) (pad 30 (lit "Artist"))
                    (pad 30 (lit "Album")) (lit "1999")).
Proof.
  apply (readID3v1Tag_fields legacy_file).
  - apply Nat.leb_le. reflexivity.
  - reflexivity.
  - discriminate.
Defined.

Lemma readMetadata_no_ID3v1_tag_witness :
  readMetadata (single_file "song.mp3" untagged_file) "song.mp3" =
    Throw (runtime_error "No ID3v1 tag found in file.").
Proof.
  apply (readMetadata_no_ID3v1_tag _ _ untagged_file).
  - reflexivity.
  - apply Nat.leb_le. reflexivity.
  - discriminate.
  - discriminate.
Defined.

(** With the declared size 7 the NUL after "Hello" is part of the payload
    and of the title. *)
Lemma readMetadata_TIT2_title_witness :
  exists m,
    readMetadata
      (single_file "song.mp3"
         (tag_header [byte 3; byte 0; byte 0] size_42
          ++ frames_bytes ([] ++ hello_frame :: [padding_frame; padding_frame])
          ++ repeat (byte 0) 5))
      "song.mp3" = Val m /\
    title m = lit "Hello" ++ [NUL].
Proof.
  apply (readMetadata_TIT2_title
           (single_file "song.mp3"
              (tag_header [byte 3; byte 0; byte 0] size_42
               ++ frames_bytes
                    ([] ++ hello_frame :: [padding_frame; padding_frame])
               ++ repeat (byte 0) 5))
           "song.mp3" [byte 3; byte 0; byte 0] size_42 42
           [] [padding_frame; padding_frame] hello_frame
           (lit "Hello" ++ [NUL]) (repeat (byte 0) 5)).
  - reflexivity.
  - reflexivity.
  - reflexivity.
  - repeat constructor.
  - vm_compute. split; [reflexivity|discriminate].
  - reflexivity.
  - reflexivity.
  - repeat constructor.
Defined.

(** C8, counterexample: with the declared frame size 6 of the scenario, the
    reader takes 00 'H' 'e' 'l' 'l' 'o' as the payload; the title is the
    five bytes "Hello", not the six bytes that end with NUL. *)
Lemma readMetadata_TIT2_size6_counterexample :
  exists m,
    readMetadata (single_file "song.mp3" hello_size6) "song.mp3" = Val m /\
    title m = lit "Hello" /\
    title m <> lit "Hello" ++ [NUL].
Proof.
  exists (mkMetaData (lit "Hello") [] [] []).
  split; [vm_compute; reflexivity|].
  split; [reflexivity|discriminate].
Qed.

Lemma frame_body_empty_frame_witness :
  exists w',
    frame_body 10 at_empty_frame = (w', Val (10 + 10)) /\
    metadata w' = metadata at_empty_frame /\
    trace w' = trace at_empty_frame ++ [Ev_read 10 10 10] /\
    filter is_parse_call (trace w') =
      filter is_parse_call (trace at_empty_frame) /\
    remaining w' = lit "rest".
Proof.
  apply (frame_body_empty_frame at_empty_frame 10 (lit "TIT2")
           [byte 0; byte 0; byte 0; byte 0] [byte 0; byte 0] (lit "rest")).
  - reflexivity.
  - reflexivity.
  - reflexivity.
  - reflexivity.
  - reflexivity.
  - split; [discriminate|reflexivity].
Defined.

Lemma readMetadata_short_payload_witness :
  readMetadata (single_file "song.mp3" cut_file) "song.mp3" =
    Val (mkMetaData (lit "He" ++ [NUL; NUL; NUL]) [] [] []).
Proof.
  apply (readMetadata_short_payload
           (single_file "song.mp3" cut_file) "song.mp3"
           [byte 3; byte 0; byte 0] [byte 0; byte 0; byte 0; byte 26] 26
           [] cut_frame ([byte 0] ++ lit "He") 3).
  - reflexivity.
  - reflexivity.
  - reflexivity.
  - repeat constructor.
  - reflexivity.
  - apply Nat.ltb_lt. reflexivity.
  - vm_compute. split; [reflexivity|discriminate].
Defined.

(** C2, counterexample: the file ends 3 bytes into a payload of 6 (the read
    at offset 20 asks for 6 bytes and gets 3); [readMetadata] returns a
    record, its title made of the 2 text bytes read and 3 NULs. *)
Lemma readMetadata_short_read_counterexample :
  In (Ev_read 20 6 3) (trace (fst (run_readMetadata cut_file))) /\
  readMetadata (single_file "song.mp3" cut_file) "song.mp3" =
    Val (mkMetaData (lit "He" ++ [NUL; NUL; NUL]) [] [] []).
Proof.
  split; [vm_compute; tauto|vm_compute; reflexivity].
Qed.



(** * Further properties *)

(** ** decodeSynchsafeInt as a base-128 number *)

Lemma land_mul_pow2_small a b k :
  0 <= k -> 0 <= b < 2 ^ k -> Z.land (a * 2 ^ k) b = 0.
Proof.
  intros K B. apply Z.bits_inj'. intros n N.
  rewrite Z.land_spec, Z.bits_0.
  destruct (Z.lt_ge_cases n k) as [L|G].
  - now rewrite Z.mul_pow2_bits_low.
  - rewrite <- (Z.mod_small b (2 ^ k)) by lia.
    rewrite Z.mod_pow2_bits_high by lia. apply andb_false_r.
Qed.

Lemma lor_mul_pow2_small a b k :
  0 <= k -> 0 <= b < 2 ^ k -> Z.lor (a * 2 ^ k) b = a * 2 ^ k + b.
Proof.
  intros K B.
  pose proof (land_mul_pow2_small a b k K B) as D.
  rewrite <- Z.lxor_lor by exact D.
  symmetry. now apply Z.add_nocarry_lxor.
Qed.

Lemma decodeSynchsafeInt_sum b0 b1 b2 b3 :
  decodeSynchsafeInt b0 b1 b2 b3 =
    (uchar_value b0 mod 128) * 2 ^ 21 + (uchar_value b1 mod 128) * 2 ^ 14
    + (uchar_value b2 mod 128) * 2 ^ 7 + uchar_value b3 mod 128.
Proof.
  rewrite (proj1 (decodeSynchsafeInt_masked b0 b1 b2 b3)).
  change 0x7F with (Z.ones 7). rewrite !Z.land_ones by lia.
  change (2 ^ 7) with 128.
  pose proof (Z.mod_pos_bound (uchar_value b0) 128 ltac:(lia)) as R0.
  pose proof (Z.mod_pos_bound (uchar_value b1) 128 ltac:(lia)) as R1.
  pose proof (Z.mod_pos_bound (uchar_value b2) 128 ltac:(lia)) as R2.
  pose proof (Z.mod_pos_bound (uchar_value b3) 128 ltac:(lia)) as R3.
  set (d0 := uchar_value b0 mod 128) in *.
  set (d1 := uchar_value b1 mod 128) in *.
  set (d2 := uchar_value b2 mod 128) in *.
  set (d3 := uchar_value b3 mod 128) in *.
  rewrite !Z.shiftl_mul_pow2 by lia.
  rewrite (lor_mul_pow2_small d0 (d1 * 2 ^ 14) 21) by lia.
  replace (d0 * 2 ^ 21 + d1 * 2 ^ 14) with ((d0 * 2 ^ 7 + d1) * 2 ^ 14) by lia.
  rewrite (lor_mul_pow2_small _ (d2 * 2 ^ 7) 14) by lia.
  replace ((d0 * 2 ^ 7 + d1) * 2 ^ 14 + d2 * 2 ^ 7)
    with (((d0 * 2 ^ 7 + d1) * 2 ^ 7 + d2) * 2 ^ 7) by lia.
  rewrite (lor_mul_pow2_small _ d3 7) by lia.
  lia.
Qed.

Lemma uchar_value_inj a b : uchar_value a = uchar_value b -> a = b.
Proof.
  unfold uchar_value. intros H. apply N2Z.inj in H.
  rewrite <- (ascii_N_embedding a), <- (ascii_N_embedding b). now rewrite H.
Qed.

Lemma uchar_value_char_of_value z :
  0 <= z < 256 -> uchar_value (char_of_value z) = z.
Proof.
  intros H. unfold uchar_value, char_of_value.
  rewrite N_ascii_embedding by lia. lia.
Qed.

(** X1: the decoded size is the base-128 number whose digits are the four
    bytes without their high bits, so clearing the high bit of every byte
    does not change it. *)
Theorem decodeSynchsafeInt_base128 (b0 b1 b2 b3 : char) :
  decodeSynchsafeInt b0 b1 b2 b3 =
    (uchar_value b0 mod 128) * 128 ^ 3 + (uchar_value b1 mod 128) * 128 ^ 2
    + (uchar_value b2 mod 128) * 128 + uchar_value b3 mod 128 /\
  decodeSynchsafeInt b0 b1 b2 b3 =
    decodeSynchsafeInt (clear_high_bit b0) (clear_high_bit b1)
                       (clear_high_bit b2) (clear_high_bit b3).
Proof.
  split.
  - rewrite decodeSynchsafeInt_sum. lia.
  - rewrite !decodeSynchsafeInt_sum.
    assert (E : forall c, uchar_value (clear_high_bit c) mod 128
                          = uchar_value c mod 128).
    { intros c. unfold clear_high_bit.
      pose proof (Z.mod_pos_bound (uchar_value c) 128 ltac:(lia)).
      rewrite uchar_value_char_of_value by lia.
      apply Z.mod_mod. lia. }
    now rewrite !E.
Qed.

(** X2: on size fields whose bytes have the high bit clear the decoder is
    one-to-one, and it is onto the sizes below 2^28: the base-128 digits of
    [n] decode to [n]. *)
Theorem decodeSynchsafeInt_digits (n : Z) (b0 b1 b2 b3 c0 c1 c2 c3 : char) :
  0 <= n < 2 ^ 28 ->
  uchar_value b0 < 128 -> uchar_value b1 < 128 ->
  uchar_value b2 < 128 -> uchar_value b3 < 128 ->
  uchar_value c0 < 128 -> uchar_value c1 < 128 ->
  uchar_value c2 < 128 -> uchar_value c3 < 128 ->
  size_of_field (synchsafe_field n) = Some n /\
  (decodeSynchsafeInt b0 b1 b2 b3 = decodeSynchsafeInt c0 c1 c2 c3 ->
   [b0; b1; b2; b3] = [c0; c1; c2; c3]).
Proof.
  intros N B0 B1 B2 B3 C0 C1 C2 C3. split.
  - unfold synchsafe_field, size_of_field. f_equal.
    rewrite decodeSynchsafeInt_sum.
    rewrite !uchar_value_char_of_value
      by (match goal with |- 0 <= ?x mod 128 < 256 =>
            pose proof (Z.mod_pos_bound x 128 ltac:(lia)); lia end).
    rewrite !Z.mod_mod by lia.
    change (2 ^ 21) with 2097152. change (2 ^ 14) with 16384.
    change (2 ^ 7) with 128. change (2 ^ 28) with 268435456 in N.
    Z.div_mod_to_equations. lia.
  - rewrite !decodeSynchsafeInt_sum.
    pose proof (uchar_value_range b0). pose proof (uchar_value_range b1).
    pose proof (uchar_value_range b2). pose proof (uchar_value_range b3).
    pose proof (uchar_value_range c0). pose proof (uchar_value_range c1).
    pose proof (uchar_value_range c2). pose proof (uchar_value_range c3).
    rewrite !Z.mod_small by lia.
    change (2 ^ 21) with 2097152. change (2 ^ 14) with 16384.
    change (2 ^ 7) with 128.
    intros E.
    assert (uchar_value b0 = uchar_value c0) by lia.
    assert (uchar_value b1 = uchar_value c1) by lia.
    assert (uchar_value b2 = uchar_value c2) by lia.
    assert (uchar_value b3 = uchar_value c3) by lia.
    repeat f_equal; now apply uchar_value_inj.
Qed.

(** ** parseTextFrame on any payload *)

Lemma parseTextFrame_pairs_bytes ps :
  parseTextFrame ("001"%char :: pairs_bytes ps) = map snd ps.
Proof.
  rewrite parseTextFrame_utf16, utf16_positions_even, map_map.
  rewrite <- (app_nil_r (pairs_bytes ps)). apply second_bytes.
Qed.

Lemma utf16_positions_length textContent :
  length (utf16_positions textContent) =
    Nat.div (length textContent + 1) 2.
Proof.
  unfold utf16_positions. rewrite length_map.
  set (n := length textContent).
  destruct (Nat.Even_or_Odd n) as [[k Hk]|[k Hk]].
  - replace (loop_indices n 0 n) with (loop_indices n 0 (0 + 2 * k))
      by (f_equal; lia).
    rewrite (loop_indices_even k n 0%nat) by lia.
    rewrite length_map, length_seq, Hk.
    apply Nat.div_unique with (r := 1%nat); lia.
  - replace (loop_indices n 0 n) with (loop_indices n 0 (0 + 2 * k + 1))
      by (f_equal; lia).
    rewrite (loop_indices_odd k n 0%nat) by lia.
    rewrite length_map, length_seq, Hk.
    apply Nat.div_unique with (r := 0%nat); lia.
Qed.

Lemma encoding_one c : uchar_value c = 1 -> c = "001"%char.
Proof. intros H. now apply uchar_value_inj. Qed.

(** X3: whatever the payload, the decoder returns a string no longer than
    the text after the encoding byte: half its bytes, rounded up, when the
    encoding byte is 1, and otherwise the text itself, byte for byte, for
    encoding 0 as for every encoding the decoder does not know. *)
Theorem parseTextFrame_any_encoding (c0 : char) (textContent : std_string) :
  let r := parseTextFrame (c0 :: textContent) in
  (if uchar_value c0 =? 1
   then length r = Nat.div (length textContent + 1) 2
   else r = textContent) /\
  (length r <= length textContent)%nat.
Proof.
  cbn zeta.
  destruct (uchar_value c0 =? 1) eqn:E.
  - apply Z.eqb_eq, encoding_one in E. subst c0.
    rewrite parseTextFrame_utf16, length_map, utf16_positions_length.
    split; [reflexivity|].
    pose proof (Nat.Div0.mul_div_le (length textContent + 1) 2). lia.
  - assert (R : parseTextFrame (c0 :: textContent) = textContent).
    { unfold parseTextFrame. rewrite E. cbn [substr skipn].
      now destruct (uchar_value c0 =? 0). }
    rewrite R. split; [reflexivity|lia].
Qed.

Lemma utf16be_pairs s :
  utf16be s = pairs_bytes (map (fun c => (NUL, c)) s).
Proof.
  induction s as [|c s IH]; [reflexivity|].
  cbn [utf16be flat_map map pairs_bytes fst snd app] in *.
  fold (utf16be s). fold (pairs_bytes (map (fun c => (NUL, c)) s)).
  now rewrite IH.
Qed.

Lemma utf16le_pairs s :
  utf16le s = pairs_bytes (map (fun c => (c, NUL)) s).
Proof.
  induction s as [|c s IH]; [reflexivity|].
  cbn [utf16le flat_map map pairs_bytes fst snd app] in *.
  fold (utf16le s). fold (pairs_bytes (map (fun c => (c, NUL)) s)).
  now rewrite IH.
Qed.

Lemma map_snd_low s : map snd (map (fun c : char => (NUL, c)) s) = s.
Proof. rewrite map_map. cbn [snd]. apply map_id. Qed.

Lemma map_snd_high s :
  map snd (map (fun c : char => (c, NUL)) s) = repeat NUL (length s).
Proof.
  induction s as [|c s IH]; [reflexivity|]. cbn [map snd length repeat].
  now rewrite IH.
Qed.

(** X4: with encoding byte 1 the decoder keeps the second byte of each
    code unit, so text of chars below 256 comes back intact when its code
    units have the high byte first, and as NULs, one per char, when they
    have the low byte first; a byte order mark is not skipped, its second
    byte becomes the first char of the result. *)
Theorem parseTextFrame_byte_order (s : std_string) :
  parseTextFrame ("001"%char :: utf16be s) = s /\
  parseTextFrame ("001"%char :: utf16le s) = repeat NUL (length s) /\
  parseTextFrame ("001"%char :: ["254"%char; "255"%char] ++ utf16be s) =
    "255"%char :: s /\
  parseTextFrame ("001"%char :: ["255"%char; "254"%char] ++ utf16le s) =
    "254"%char :: repeat NUL (length s).
Proof.
  rewrite utf16be_pairs, utf16le_pairs.
  repeat split.
  - now rewrite parseTextFrame_pairs_bytes, map_snd_low.
  - now rewrite parseTextFrame_pairs_bytes, map_snd_high.
  - change (["254"%char; "255"%char]
            ++ pairs_bytes (map (fun c => (NUL, c)) s))
      with (pairs_bytes (("254"%char, "255"%char)
                         :: map (fun c => (NUL, c)) s)).
    rewrite parseTextFrame_pairs_bytes. cbn [map snd].
    now rewrite map_snd_low.
  - change (["255"%char; "254"%char]
            ++ pairs_bytes (map (fun c => (c, NUL)) s))
      with (pairs_bytes (("255"%char, "254"%char)
                         :: map (fun c => (c, NUL)) s)).
    rewrite parseTextFrame_pairs_bytes. cbn [map snd].
    now rewrite map_snd_high.
Qed.

(** ** The detector and the readers at the edges of a file *)

Lemma hasID3v2Tag_run w a b c rest :
  failbit (file w) = false ->
  contents (file w) = a :: b :: c :: rest ->
  hasID3v2Tag w =
    (mkWorld (mkIfstream (contents (file w)) 3 false false (is_open (file w)))
             (metadata w) (trace w ++ [Ev_read 0 3 3]),
     Val (Ascii.eqb a "I" && Ascii.eqb b "D" && Ascii.eqb c "3")%bool).
Proof.
  intros F C. unfold hasID3v2Tag.
  rewrite (bind_val _ _ _ _ _ (seekg_beg w F)).
  match goal with |- context [bind _ _ ?x] => set (w1 := x) end.
  assert (R : remaining w1 = [a; b; c] ++ rest) by exact C.
  pose proof (read_full (uninitialised 3) [a; b; c] rest w1 eq_refl R) as RD.
  change (length [a; b; c]) with 3%nat in RD.
  rewrite (bind_val _ _ _ _ _ RD).
  rewrite !char_is_filled by (cbn; lia).
  cbn [nth]. unfold and_then. rewrite !bind_ret_l.
  destruct (Ascii.eqb a "I"); [|reflexivity].
  rewrite bind_ret_l.
  destruct (Ascii.eqb b "D"); reflexivity.
Qed.

(** X5: the detector looks at the start of the file wherever the stream
    stood: on a stream that has not failed, over a file of at least 3
    bytes, it answers true exactly when the file starts with "ID3", and
    leaves the stream at offset 3 with no state bit set and the record
    untouched. *)
Theorem hasID3v2Tag_from_any_position (w : world) :
  failbit (file w) = false ->
  (3 <= length (contents (file w)))%nat ->
  exists w' tagged,
    hasID3v2Tag w = (w', Val tagged) /\
    (tagged = true <-> firstn 3 (contents (file w)) = lit "ID3") /\
    gpos (file w') = 3%nat /\
    good (file w') = true /\
    contents (file w') = contents (file w) /\
    metadata w' = metadata w.
Proof.
  intros F L.
  destruct (contents (file w)) as [|a [|b [|c rest]]] eqn:C;
    cbn [length] in L; try lia.
  rewrite (hasID3v2Tag_run w a b c rest F C).
  eexists _, _. split; [reflexivity|].
  split; [apply starts_with_ID3|].
  cbn [file gpos contents metadata good eofbit failbit orb negb].
  now rewrite C.
Qed.

Lemma seekg_end_short w :
  failbit (file w) = false ->
  (length (contents (file w)) < 128)%nat ->
  seekg (-128) ios_end w =
    (set_file (mkIfstream (contents (file w)) (gpos (file w)) false true
                          (is_open (file w))) w,
     Val tt).
Proof.
  intros F L. unfold seekg. rewrite F.
  assert (T : (Z.of_nat (length (contents (file w))) + -128 <? 0) = true)
    by (apply Z.ltb_lt; lia).
  now rewrite T.
Qed.

(** The legacy reader on a file of fewer than 128 bytes: the seek to 128
    bytes before the end fails, the read delivers nothing, and the "TAG"
    test examines [buffer[0]], which no read has filled. *)
Lemma readID3v1Tag_short w :
  failbit (file w) = false ->
  (length (contents (file w)) < 128)%nat ->
  readID3v1Tag w =
    (mkWorld (mkIfstream (contents (file w)) (gpos (file w)) false true
                         (is_open (file w)))
             (metadata w)
             (trace w ++ [Call_readID3v1Tag; Ev_read (gpos (file w)) 128 0]),
     Undefined).
Proof.
  intros F L. unfold readID3v1Tag.
  rewrite (bind_val _ _ w _ tt eq_refl).
  match goal with |- context [bind _ _ ?x] => set (w0 := x) end.
  rewrite (bind_val _ _ _ _ _ (seekg_end_short w0 F L)).
  unfold bind, read, and_then, bind, char_is, bind.
  cbn. now rewrite <- app_assoc.
Qed.

(** X6: on a file of 3 to 127 bytes that does not start with "ID3",
    [readMetadata] takes the legacy path, where the seek to 128 bytes
    before the end fails and the read delivers no byte (failbit is set);
    the "TAG" test is then made on an array that
    holds no value, so the outcome is not defined: neither a record nor the
    no-tag error is guaranteed. *)
Theorem readMetadata_short_file (data : std_string) :
  (3 <= length data < 128)%nat ->
  firstn 3 data <> lit "ID3" ->
  exists w,
    run_readMetadata data = (w, Undefined) /\
    trace w = [Ev_read 0 3 3; Call_readID3v1Tag; Ev_read 3 128 0] /\
    failbit (file w) = true /\
    metadata w = empty_MetaData.
Proof.
  intros [L U] N.
  destruct data as [|a [|b [|c rest]]]; cbn [length] in L; try lia.
  rewrite run_readMetadata_unfold.
  rewrite (bind_val _ _ _ _ _ (hasID3v2Tag_three a b c rest)).
  assert (T : (Ascii.eqb a "I" && Ascii.eqb b "D" && Ascii.eqb c "3")%bool
              = false).
  { destruct (_ && _)%bool eqn:E; [|reflexivity].
    apply starts_with_ID3 with (rest := rest) in E. contradiction. }
  rewrite T. unfold after_detector.
  match goal with |- context [bind _ _ ?x] => set (w1 := x) end.
  rewrite (bind_undefined _ _ _ _
             (readID3v1Tag_short w1 eq_refl U)).
  eexists. split; [reflexivity|]. repeat split.
Qed.

(** X7: a file that starts with "ID3" and ends before the 10 bytes of the
    tag header are complete makes the modern reader decode the tag size
    from header bytes the short read did not fill: the outcome is not
    defined, and no frame is read. *)
Theorem readMetadata_truncated_header (data : std_string) :
  firstn 3 data = lit "ID3" ->
  (length data < 10)%nat ->
  exists w,
    run_readMetadata data = (w, Undefined) /\
    trace w = [Ev_read 0 3 3; Call_readID3v2Tag;
               Ev_read 0 10 (length data)] /\
    failbit (file w) = true /\
    metadata w = empty_MetaData.
Proof.
  intros H L.
  destruct data as [|a [|b [|c tl]]]; try discriminate.
  cbn [firstn lit list_ascii_of_string] in H. inversion H; subst a b c.
  clear H.
  rewrite run_readMetadata_ID3.
  destruct tl as [|x0 [|x1 [|x2 [|x3 [|x4 [|x5 [|x6 tl]]]]]]];
    cbn [length] in L; try lia;
    (eexists; split; [reflexivity|]; repeat split).
Qed.

(** The modern reader up to its loop, with what it has read so far. *)
Lemma readID3v2Tag_enters_loop vf sz tagSize body w :
  length vf = 3%nat ->
  size_of_field sz = Some tagSize ->
  failbit (file w) = false ->
  contents (file w) = tag_header vf sz ++ body ->
  exists w2,
    readID3v2Tag w =
      bind (frame_loop (Z.to_nat tagSize) tagSize 10) (fun _ => ret tt) w2 /\
    metadata w2 = metadata w /\
    good (file w2) = true /\
    remaining w2 = body /\
    gpos (file w2) = 10%nat /\
    contents (file w2) = contents (file w) /\
    trace w2 = trace w ++ [Call_readID3v2Tag; Ev_read 0 10 10].
Proof.
  intros V S F D.
  destruct (size_field_shape sz tagSize S) as (s0 & s1 & s2 & s3 & -> & ->).
  destruct vf as [|v0 [|v1 [|v2 [|]]]]; try discriminate. clear V.
  set (hdr := tag_header [v0; v1; v2] [s0; s1; s2; s3]) in *.
  unfold readID3v2Tag.
  rewrite (bind_val _ _ w _ tt eq_refl).
  match goal with |- context [bind _ _ ?x] => set (w0 := x) end.
  rewrite (bind_val _ _ _ _ _ (seekg_beg w0 F)).
  match goal with |- context [bind _ _ ?x] => set (w1 := x) end.
  assert (R1 : remaining w1 = hdr ++ body) by exact D.
  pose proof (read_full (uninitialised 10) hdr _ w1 eq_refl R1) as RD.
  change (length hdr) with 10%nat in RD.
  rewrite (bind_val _ _ _ _ _ RD).
  match type of RD with _ = (?x, _) => set (w2 := x) in * end.
  rewrite decodeSynchsafeInt_at_filled by (cbn; lia).
  rewrite bind_ret_l.
  cbn [hdr tag_header lit list_ascii_of_string app nth Nat.add].
  exists w2. repeat split; try reflexivity.
  - unfold remaining, w2. cbn [file gpos contents].
    apply (remaining_after hdr); [exact R1|reflexivity].
  - cbn [w2 w1 w0 trace file gpos set_file]. now rewrite <- app_assoc.
Qed.

(** X8: when the tag header declares a size of 10 or less, the loop is not
    entered: [readMetadata] reads the 3 and the 10 header bytes, nothing
    else, and returns the empty record without error, whatever follows the
    header in the file, frames or an ID3v1 trailer included. *)
Theorem readMetadata_no_frames
  (fs : filesystem) (filepath : string)
  (vf sz : std_string) (tagSize : Z) (body : std_string) :
  fs filepath = Some (tag_header vf sz ++ body) ->
  length vf = 3%nat ->
  size_of_field sz = Some tagSize ->
  tagSize <= 10 ->
  readMetadata fs filepath = Val empty_MetaData /\
  trace (fst (run_readMetadata (tag_header vf sz ++ body))) =
    [Ev_read 0 3 3; Call_readID3v2Tag; Ev_read 0 10 10].
Proof.
  intros O V S T.
  unfold readMetadata. rewrite O.
  unfold tag_header. cbn [lit list_ascii_of_string app].
  rewrite run_readMetadata_ID3.
  match goal with |- context [after_detector true ?x] => set (w := x) end.
  destruct (readID3v2Tag_enters_loop vf sz tagSize body w V S
              eq_refl eq_refl) as (w2 & E & M2 & _ & _ & _ & _ & T2).
  assert (RT : readID3v2Tag w = (w2, Val tt))
    by (rewrite E; unfold bind; now rewrite frame_loop_stops).
  unfold after_detector. rewrite (bind_val _ _ _ _ _ RT).
  cbn. now rewrite M2, T2.
Qed.

(** ** The exceptions of readMetadata *)

Lemma raises_only_returns {A} E (P : A -> Prop) m :
  returns P m -> raises_only E m.
Proof.
  intros R w. specialize (R w). destruct (snd (m w)); auto; contradiction.
Qed.

Lemma raises_only_bind {A B} E (m : M A) (k : A -> M B) :
  raises_only E m -> (forall a, raises_only E (k a)) ->
  raises_only E (bind m k).
Proof.
  intros Hm Hk w. unfold bind. specialize (Hm w).
  destruct (m w) as [w1 [a|e| |]]; cbn [snd] in *; try tauto.
  apply Hk.
Qed.

Lemma returns_char_is buf i c : returns anything (char_is buf i c).
Proof.
  unfold char_is.
  apply (returns_bind anything); [apply returns_load|intros x _].
  now apply returns_ret.
Qed.

Lemma returns_and_then a b :
  returns anything a -> returns anything b -> returns anything (a &&& b).
Proof.
  intros Ha Hb. unfold and_then.
  apply (returns_bind anything); [exact Ha|intros x _].
  destruct x; [exact Hb|now apply returns_ret].
Qed.

Lemma returns_hasID3v2Tag : returns anything hasID3v2Tag.
Proof.
  unfold hasID3v2Tag.
  apply (returns_bind anything); [apply returns_seekg|intros _ _].
  apply (returns_bind anything); [apply returns_read|intros header _].
  repeat apply returns_and_then; apply returns_char_is.
Qed.

(** The legacy reader throws nothing but its no-tag error. *)
Lemma raises_only_readID3v1Tag : raises_only no_ID3v1_tag readID3v1Tag.
Proof.
  unfold readID3v1Tag.
  apply raises_only_bind;
    [apply (raises_only_returns _ anything), returns_log|intros _].
  apply raises_only_bind;
    [apply (raises_only_returns _ anything), returns_seekg|intros _].
  apply raises_only_bind;
    [apply (raises_only_returns _ anything), returns_read|intros buffer].
  apply raises_only_bind.
  - apply (raises_only_returns _ anything).
    repeat apply returns_and_then; apply returns_char_is.
  - intros [|]; [|intros w; reflexivity].
    apply (raises_only_returns _ anything).
    repeat (apply (returns_bind anything);
            [first [apply returns_load_string | apply returns_set_field]
            |intros ? _]).
    apply returns_set_field.
Qed.

Lemma raises_only_readMetadata_body :
  raises_only no_ID3v1_tag readMetadata_body.
Proof.
  unfold readMetadata_body.
  apply raises_only_bind;
    [apply (raises_only_returns _ anything), returns_hasID3v2Tag|].
  intros tagged. apply raises_only_bind.
  - destruct tagged;
      [apply (raises_only_returns _ anything), returns_readID3v2Tag
      |apply raises_only_readID3v1Tag].
  - intros _ w. exact I.
Qed.

(** X9: every [std::runtime_error] that [readMetadata] throws is one of
    two: "Could not open file: " followed by the path, when the file cannot
    be opened, and "No ID3v1 tag found in file.", on a file that does not
    start with "ID3" and whose last 128 bytes, when it has that many, do not
    begin with "TAG".  No failed seek or read is turned into an exception.
    (A failed allocation of a frame buffer throws [std::bad_alloc], which is
    no [runtime_error] and which the model, with its unbounded memory, does
    not have.) *)
Theorem readMetadata_exceptions
  (fs : filesystem) (filepath : string) (what : string) :
  readMetadata fs filepath = Throw (runtime_error what) ->
  (fs filepath = None /\
   what = String.append "Could not open file: " filepath) \/
  (exists data,
     fs filepath = Some data /\
     firstn 3 data <> lit "ID3" /\
     ((128 <= length data)%nat -> firstn 3 (last_128 data) <> lit "TAG") /\
     what = "No ID3v1 tag found in file."%string).
Proof.
  unfold readMetadata.
  destruct (fs filepath) as [data|].
  - intros E. right. exists data.
    pose proof (raises_only_readMetadata_body (opened data)) as R.
    fold (run_readMetadata data) in R. rewrite E in R.
    assert (N : firstn 3 data <> lit "ID3").
    { intros H. pose proof (run_readMetadata_modern_returns data H) as M.
      now rewrite E in M. }
    split; [reflexivity|]. split; [exact N|]. split.
    + intros L T.
      rewrite (run_readMetadata_legacy data L N) in E.
      pose proof (last_128_length data L) as BL.
      apply tag_test_spec in T; [|lia].
      rewrite T in E. discriminate.
    + now inversion R.
  - intros E. left. split; [reflexivity|]. now inversion E.
Qed.

(** ** Which frames reach the record *)

Lemma apply_frame_field m f field :
  field_of (frame_id f) = Some field ->
  frame_payload f <> [] ->
  field (apply_frame m f) = parseTextFrame (frame_payload f).
Proof.
  unfold field_of, apply_frame. intros F N.
  destruct (frame_payload f) as [|p pl]; [contradiction|].
  destruct (std_string_eqb (frame_id f) (lit "TIT2"));
    [inversion F; reflexivity|].
  destruct (std_string_eqb (frame_id f) (lit "TPE1"));
    [inversion F; reflexivity|].
  destruct (std_string_eqb (frame_id f) (lit "TALB"));
    [inversion F; reflexivity|].
  destruct (std_string_eqb (frame_id f) (lit "TYER"));
    [inversion F; reflexivity|discriminate].
Qed.

Lemma std_string_eqb_refl a : std_string_eqb a a = true.
Proof. now apply std_string_eqb_eq. Qed.

Lemma apply_frame_keeps_field m f g field :
  field_of (frame_id f) = Some field ->
  (frame_id g = frame_id f -> frame_payload g = []) ->
  field (apply_frame m g) = field m.
Proof.
  unfold field_of. intros F K.
  destruct (std_string_eqb (frame_id f) (lit "TIT2")) eqn:E1.
  { apply std_string_eqb_eq in E1. rewrite E1 in K. inversion F.
    now apply apply_frame_keeps_title. }
  destruct (std_string_eqb (frame_id f) (lit "TPE1")) eqn:E2.
  { apply std_string_eqb_eq in E2. rewrite E2 in K. inversion F.
    now apply apply_frame_keeps_artist. }
  destruct (std_string_eqb (frame_id f) (lit "TALB")) eqn:E3.
  { apply std_string_eqb_eq in E3. rewrite E3 in K. inversion F.
    now apply apply_frame_keeps_album. }
  destruct (std_string_eqb (frame_id f) (lit "TYER")) eqn:E4.
  { apply std_string_eqb_eq in E4. rewrite E4 in K. inversion F.
    now apply apply_frame_keeps_year. }
  discriminate.
Qed.

(** X10: the four identifiers fill their own fields and the last frame
    wins: on a tag of complete frames walked to the last one, the field that
    TIT2, TPE1, TALB or TYER stands for (title, artist, album, year) is what
    the decoder makes of the payload of the last frame with that identifier
    that has a payload. *)
Theorem readMetadata_field_of
  (fs : filesystem) (filepath : string)
  (vf sz : std_string) (tagSize : Z)
  (before after : list frame) (f : frame)
  (field : MetaData -> std_string) (rest : std_string) :
  let frames := before ++ f :: after in
  fs filepath = Some (tag_header vf sz ++ frames_bytes frames ++ rest) ->
  length vf = 3%nat ->
  size_of_field sz = Some tagSize ->
  Forall complete_frame frames ->
  count_after 10 (removelast frames) < tagSize <= count_after 10 frames ->
  field_of (frame_id f) = Some field ->
  frame_payload f <> [] ->
  Forall (fun g => frame_id g = frame_id f -> frame_payload g = []) after ->
  exists m,
    readMetadata fs filepath = Val m /\
    field m = parseTextFrame (frame_payload f).
Proof.
  intros frames O V S C W F N L.
  assert (NE : frames <> []) by (unfold frames; now destruct before).
  rewrite (readMetadata_complete fs filepath vf sz tagSize frames rest
             O NE V S C W).
  eexists. split; [reflexivity|].
  unfold frames. rewrite fold_left_app. cbn [fold_left].
  set (m1 := apply_frame _ f).
  assert (K : forall gs m,
             Forall (fun g => frame_id g = frame_id f ->
                              frame_payload g = []) gs ->
             field (fold_left apply_frame gs m) = field m).
  { intros gs. induction gs as [|g gs IH]; intros m G; [reflexivity|].
    inversion G; subst. cbn [fold_left]. rewrite IH by assumption.
    now apply (apply_frame_keeps_field m f g). }
  rewrite K by exact L. unfold m1. now apply apply_frame_field.
Qed.

Lemma apply_frame_skip m f : contributes f = false -> apply_frame m f = m.
Proof.
  unfold contributes, recognised, apply_frame.
  destruct (frame_payload f) as [|p pl]; [reflexivity|].
  rewrite andb_true_r.
  destruct (std_string_eqb (frame_id f) (lit "TIT2")); [discriminate|].
  destruct (std_string_eqb (frame_id f) (lit "TPE1")); [discriminate|].
  destruct (std_string_eqb (frame_id f) (lit "TALB")); [discriminate|].
  destruct (std_string_eqb (frame_id f) (lit "TYER")); [discriminate|].
  reflexivity.
Qed.

Lemma fold_contributing fs : forall m,
  fold_left apply_frame (filter contributes fs) m = fold_left apply_frame fs m.
Proof.
  induction fs as [|f fs IH]; intros m; [reflexivity|].
  cbn [filter fold_left]. destruct (contributes f) eqn:E.
  - cbn [fold_left]. apply IH.
  - rewrite IH. now rewrite apply_frame_skip.
Qed.

(** X11: frames with another identifier than the four, and frames with an
    empty payload, are walked over without effect: [readMetadata] returns
    what it would return on the tag without them, and the empty record when
    the tag has no other frame. *)
Theorem readMetadata_skips_frames
  (fs : filesystem) (filepath : string)
  (vf sz : std_string) (tagSize : Z) (frames : list frame)
  (rest : std_string) :
  fs filepath = Some (tag_header vf sz ++ frames_bytes frames ++ rest) ->
  frames <> [] ->
  length vf = 3%nat ->
  size_of_field sz = Some tagSize ->
  Forall complete_frame frames ->
  count_after 10 (removelast frames) < tagSize <= count_after 10 frames ->
  readMetadata fs filepath =
    Val (fold_left apply_frame (filter contributes frames) empty_MetaData) /\
  (filter contributes frames = [] ->
   readMetadata fs filepath = Val empty_MetaData).
Proof.
  intros O NE V S C W.
  rewrite (readMetadata_complete fs filepath vf sz tagSize frames rest
             O NE V S C W).
  rewrite <- fold_contributing.
  split; [reflexivity|]. now intros ->.
Qed.

(** ** Bytes that the reader does not look at *)

Lemma map_removelast {A B} (g : A -> B) (l : list A) :
  removelast (map g l) = map g (removelast l).
Proof.
  induction l as [|x [|y l] IH]; try reflexivity.
  cbn [map removelast] in *. now rewrite IH.
Qed.

Lemma count_after_reflag flags fs : forall b,
  count_after b (map (reflag flags) fs) = count_after b fs.
Proof.
  induction fs as [|f fs IH]; intros b; [reflexivity|].
  cbn [map]. rewrite !count_after_cons. apply IH.
Qed.

Lemma fold_reflag flags fs : forall m,
  fold_left apply_frame (map (reflag flags) fs) m = fold_left apply_frame fs m.
Proof.
  induction fs as [|f fs IH]; intros m; [reflexivity|].
  cbn [map fold_left]. rewrite IH. reflexivity.
Qed.

Lemma complete_reflag flags fs :
  (forall f, length (flags f) = 2%nat) ->
  Forall complete_frame fs -> Forall complete_frame (map (reflag flags) fs).
Proof.
  intros L C. apply Forall_map. revert C. apply Forall_impl.
  intros f (I & S & _). repeat split; try assumption. apply L.
Qed.

(** X12: the reader looks neither at the version and flag bytes of the tag
    header, nor at the two flag bytes of a frame, nor at what follows the
    last frame it walks: two files that differ in those bytes only give the
    same result. *)
Theorem readMetadata_ignores_flags
  (fs fs' : filesystem) (filepath filepath' : string)
  (vf vf' sz : std_string) (tagSize : Z) (frames : list frame)
  (flags : frame -> std_string) (rest rest' : std_string) :
  fs filepath = Some (tag_header vf sz ++ frames_bytes frames ++ rest) ->
  fs' filepath' =
    Some (tag_header vf' sz ++ frames_bytes (map (reflag flags) frames)
          ++ rest') ->
  frames <> [] ->
  length vf = 3%nat ->
  length vf' = 3%nat ->
  (forall f, length (flags f) = 2%nat) ->
  size_of_field sz = Some tagSize ->
  Forall complete_frame frames ->
  count_after 10 (removelast frames) < tagSize <= count_after 10 frames ->
  readMetadata fs' filepath' = readMetadata fs filepath.
Proof.
  intros O O' NE V V' FL S C W.
  rewrite (readMetadata_complete fs filepath vf sz tagSize frames rest
             O NE V S C W).
  assert (NE' : map (reflag flags) frames <> [])
    by (destruct frames; [contradiction|discriminate]).
  assert (W' : count_after 10 (removelast (map (reflag flags) frames))
               < tagSize <= count_after 10 (map (reflag flags) frames))
    by (now rewrite map_removelast, !count_after_reflag).
  rewrite (readMetadata_complete fs' filepath' vf' sz tagSize _ rest'
             O' NE' V' S (complete_reflag flags frames FL C) W').
  now rewrite fold_reflag.
Qed.

(** ** A tag laid out as the format prescribes *)

Lemma complete_frame_length f :
  complete_frame f ->
  length (frame_bytes f) = (10 + length (frame_payload f))%nat.
Proof.
  intros C. destruct (complete_frame_shape f C)
    as (i0 & i1 & i2 & i3 & s0 & s1 & s2 & s3 & f0 & f1 & Ei & Es & Ef & _).
  unfold frame_bytes. rewrite Ei, Es, Ef. cbn [app length]. lia.
Qed.

Lemma count_after_bytes fs : forall b,
  Forall complete_frame fs ->
  count_after b fs = b + Z.of_nat (length (frames_bytes fs)).
Proof.
  induction fs as [|f fs IH]; intros b C.
  - cbn. lia.
  - inversion C; subst.
    rewrite count_after_cons, IH by assumption.
    rewrite frames_bytes_cons, length_app, complete_frame_length
      by assumption.
    lia.
Qed.

Lemma frame_events_within limit pos f :
  complete_frame f ->
  (pos + length (frame_bytes f) <= limit)%nat ->
  Forall (fun e => read_past limit e = false) (frame_events pos f).
Proof.
  intros C L. rewrite complete_frame_length in L by exact C.
  unfold frame_events.
  constructor; [cbn [read_past]; apply Nat.ltb_ge; lia|].
  destruct (frame_payload f) as [|p pl] eqn:E; [constructor|].
  constructor; [cbn [read_past]; apply Nat.ltb_ge; lia|].
  destruct (recognised (frame_id f)); repeat constructor.
Qed.

Lemma reads_within_le l1 l2 evs :
  (l1 <= l2)%nat ->
  Forall (fun e => read_past l1 e = false) evs ->
  Forall (fun e => read_past l2 e = false) evs.
Proof.
  intros L. apply Forall_impl. intros [pos c g| | |]; cbn [read_past]; auto.
  intros H. apply Nat.ltb_ge in H. apply Nat.ltb_ge. lia.
Qed.

Lemma existsb_none {A} (p : A -> bool) l :
  Forall (fun x => p x = false) l -> existsb p l = false.
Proof.
  induction 1 as [|x l H _ IH]; [reflexivity|]. cbn. now rewrite H, IH.
Qed.

(** The loop over complete frames whose count reaches [tagSize]: it stops
    after the first frame that brings the count there, having read those
    frames and no byte after them. *)
Lemma frame_loop_through tagSize gs : forall fuel w b rest,
  Forall complete_frame gs ->
  good (file w) = true ->
  remaining w = frames_bytes gs ++ rest ->
  - 2 ^ 31 <= b ->
  tagSize <= 2 ^ 28 ->
  tagSize <= count_after b gs ->
  (length gs <= fuel)%nat ->
  exists w' pre post evs,
    gs = pre ++ post /\
    frame_loop fuel tagSize b w = (w', Val (count_after b pre)) /\
    tagSize <= count_after b pre /\
    metadata w' = fold_left apply_frame pre (metadata w) /\
    trace w' = trace w ++ evs /\
    Forall (fun e => read_past
                       (gpos (file w) + length (frames_bytes pre)) e = false)
           evs.
Proof.
  induction gs as [|g gs IH]; intros fuel w b rest C G R B T U F.
  - cbn in U. exists w, [], [], [].
    rewrite frame_loop_stops by exact U.
    repeat split; try reflexivity; try assumption.
    + now rewrite app_nil_r.
    + constructor.
  - destruct (Z.le_gt_cases tagSize b) as [Stop|Go].
    + exists w, [], (g :: gs), [].
      rewrite frame_loop_stops by exact Stop.
      repeat split; try reflexivity; try assumption.
      * now rewrite app_nil_r.
      * constructor.
    + inversion C as [|? ? Cg Cgs]; subst.
      destruct fuel as [|fuel]; [cbn in F; lia|]. cbn [length] in F.
      rewrite frames_bytes_cons, <- app_assoc in R.
      destruct (frame_body_complete g _ w b Cg G R ltac:(lia))
        as (w1 & E1 & M1 & G1 & R1 & P1 & _ & T1).
      rewrite frame_loop_goes_on by lia.
      rewrite (bind_val _ _ _ _ _ E1).
      rewrite count_after_cons in U.
      set (b1 := b + 10 + Z.of_nat (length (frame_payload g))) in *.
      destruct (b1 >=? tagSize) eqn:Ge.
      * rewrite Z.geb_leb in Ge. apply Z.leb_le in Ge.
        exists w1, [g], gs, (frame_events (gpos (file w)) g).
        repeat split; try assumption.
        apply frame_events_within; [exact Cg|].
        unfold frames_bytes. cbn [map concat]. rewrite app_nil_r. lia.
      * rewrite Z.geb_leb in Ge. apply Z.leb_gt in Ge.
        destruct (IH fuel w1 b1 rest Cgs G1 R1 ltac:(lia) T U ltac:(lia))
          as (w' & pre & post & evs & Sp & E' & U' & M' & T' & W').
        exists w', (g :: pre), post, (frame_events (gpos (file w)) g ++ evs).
        rewrite frames_bytes_cons, length_app.
        repeat split.
        -- now rewrite Sp.
        -- exact E'.
        -- exact U'.
        -- cbn [fold_left]. now rewrite M', M1.
        -- now rewrite T', T1, app_assoc.
        -- apply Forall_app. split.
           ++ apply frame_events_within; [exact Cg|lia].
           ++ rewrite P1 in W'.
              revert W'. apply reads_within_le. lia.
Qed.

Lemma padding_frames_bytes j :
  frames_bytes (repeat padding_frame j) = repeat NUL (10 * j).
Proof.
  induction j as [|j IH]; [reflexivity|].
  cbn [repeat]. rewrite frames_bytes_cons, IH.
  replace (10 * S j)%nat with (10 + 10 * j)%nat by lia.
  reflexivity.
Qed.

Lemma padding_frames_complete j :
  Forall complete_frame (repeat padding_frame j).
Proof.
  apply Forall_forall. intros f H. apply repeat_spec in H. subst f.
  repeat split.
Qed.

Lemma fold_empty_frames fs : forall m,
  Forall (fun f => frame_payload f = []) fs ->
  fold_left apply_frame fs m = m.
Proof.
  induction fs as [|f fs IH]; intros m E; [reflexivity|].
  inversion E as [|? ? Ef Efs]; subst. cbn [fold_left].
  rewrite IH by assumption. unfold apply_frame. now rewrite Ef.
Qed.

(** Complete frames that take no more than 10 bytes together carry no
    payload. *)
Lemma short_frames_empty fs :
  Forall complete_frame fs ->
  (length (frames_bytes fs) <= 10)%nat ->
  Forall (fun f => frame_payload f = []) fs.
Proof.
  intros C L. destruct fs as [|f fs]; [constructor|].
  inversion C as [|? ? Cf Cfs]; subst.
  rewrite frames_bytes_cons, length_app, complete_frame_length in L
    by exact Cf.
  assert (E : frame_payload f = [])
    by (destruct (frame_payload f); [reflexivity|cbn [length] in L; lia]).
  constructor; [exact E|].
  destruct fs as [|g fs]; [constructor|].
  inversion Cfs as [|? ? Cg _]; subst.
  rewrite frames_bytes_cons, length_app, complete_frame_length in L
    by exact Cg.
  lia.
Qed.

(** X13: on a tag laid out as the format prescribes (the declared size is
    the length of the complete frames plus that of the zero padding after
    them, the 10 header bytes not counted), [readMetadata] returns the
    record that all the frames build, and no read reaches past the end of
    the tag, whatever follows it in the file. *)
Theorem readMetadata_conformant_tag
  (fs : filesystem) (filepath : string)
  (vf sz : std_string) (frames : list frame) (p : nat)
  (audio : std_string) :
  let data := tag_header vf sz ++ frames_bytes frames
              ++ repeat NUL p ++ audio in
  let tag_end := (10 + length (frames_bytes frames) + p)%nat in
  fs filepath = Some data ->
  length vf = 3%nat ->
  size_of_field sz = Some (Z.of_nat (length (frames_bytes frames) + p)) ->
  Forall complete_frame frames ->
  readMetadata fs filepath =
    Val (fold_left apply_frame frames empty_MetaData) /\
  existsb (read_past tag_end) (trace (fst (run_readMetadata data))) = false.
Proof.
  intros data tag_end O V S C.
  set (F := length (frames_bytes frames)) in *.
  set (tagSize := Z.of_nat (F + p)) in *.
  set (j := Nat.div p 10).
  pose proof (Nat.div_mod_eq p 10) as DM.
  pose proof (Nat.mod_upper_bound p 10 ltac:(lia)) as MB.
  fold j in DM.
  set (gs := frames ++ repeat padding_frame j).
  set (rest := repeat NUL (p - 10 * j) ++ audio).
  assert (D : data = tag_header vf sz ++ frames_bytes gs ++ rest).
  { unfold data, gs, rest.
    rewrite frames_bytes_app, padding_frames_bytes, <- !app_assoc.
    do 2 f_equal. rewrite app_assoc, <- repeat_app. do 2 f_equal. lia. }
  assert (Cgs : Forall complete_frame gs)
    by (apply Forall_app; split; [exact C|apply padding_frames_complete]).
  assert (Bgs : length (frames_bytes gs) = (F + 10 * j)%nat).
  { unfold gs. rewrite frames_bytes_app, length_app, padding_frames_bytes.
    now rewrite repeat_length. }
  destruct (size_field_shape sz tagSize S) as (s0 & s1 & s2 & s3 & _ & TS).
  pose proof (proj2 (decodeSynchsafeInt_masked s0 s1 s2 s3)) as Bd.
  rewrite <- TS in Bd.
  (* the run *)
  assert (RUN : exists w,
    run_readMetadata data = (w, Val (fold_left apply_frame frames
                                        empty_MetaData)) /\
    existsb (read_past tag_end) (trace w) = false).
  { rewrite D. unfold tag_header. cbn [lit list_ascii_of_string app].
    rewrite run_readMetadata_ID3.
    match goal with |- context [after_detector true ?x] => set (w := x) end.
    destruct (readID3v2Tag_enters_loop vf sz tagSize _ w V S
                eq_refl eq_refl) as (w2 & E & M2 & G2 & R2 & P2 & _ & T2).
    assert (Len : (length gs <= Z.to_nat tagSize)%nat).
    { pose proof (count_after_lower gs 0) as Low.
      rewrite (count_after_bytes gs 0 Cgs) in Low. lia. }
    destruct (frame_loop_through tagSize gs (Z.to_nat tagSize) w2 10 rest
                Cgs G2 R2 ltac:(lia) ltac:(lia)
                ltac:(rewrite (count_after_bytes gs 10 Cgs); lia) Len)
      as (w3 & pre & post & evs & Sp & E3 & U3 & M3 & T3 & W3).
    assert (Cpre : Forall complete_frame pre)
      by (rewrite Sp in Cgs; now apply Forall_app in Cgs).
    assert (Cpost : Forall complete_frame post)
      by (rewrite Sp in Cgs; now apply Forall_app in Cgs).
    rewrite (count_after_bytes pre 10 Cpre) in U3.
    (* what the loop walked builds the record of [frames], within the tag *)
    assert (K : fold_left apply_frame pre (metadata w2) =
                fold_left apply_frame frames empty_MetaData /\
                (length (frames_bytes pre) <= F + p)%nat).
    { rewrite M2. unfold gs in Sp.
      apply app_eq_app in Sp. destruct Sp as [l [[E1 E2]|[E1 E2]]].
      - (* the loop stopped inside [frames] *)
        assert (Cl : Forall complete_frame l)
          by (rewrite E1 in C; now apply Forall_app in C).
        assert (Fl : (length (frames_bytes pre) + length (frames_bytes l)
                      = F)%nat)
          by (unfold F; now rewrite E1, frames_bytes_app, length_app).
        split; [|lia].
        rewrite E1, fold_left_app.
        symmetry. apply fold_empty_frames.
        apply short_frames_empty; [exact Cl|lia].
      - (* the loop stopped in the padding *)
        assert (Pl : Forall (fun f => frame_payload f = []) l).
        { apply Forall_forall. intros f H.
          assert (In f (repeat padding_frame j))
            by (rewrite E2; apply in_app_iff; now left).
          apply repeat_spec in H0. now subst f. }
        assert (Bl : (length (frames_bytes l) <= 10 * j)%nat).
        { pose proof (f_equal (fun x => length (frames_bytes x)) E2) as Q.
          cbn beta in Q.
          rewrite padding_frames_bytes, repeat_length, frames_bytes_app,
            length_app in Q. lia. }
        split.
        + rewrite E1, fold_left_app. now apply fold_empty_frames.
        + rewrite E1, frames_bytes_app, length_app. fold F. lia. }
    destruct K as [K1 K2].
    assert (RT : readID3v2Tag w = (w3, Val tt))
      by (now rewrite E, (bind_val _ _ _ _ _ E3)).
    unfold after_detector. rewrite (bind_val _ _ _ _ _ RT).
    eexists. split;
      [cbn; unfold get_metadata; cbn [set_file metadata];
       rewrite M3, K1; reflexivity|].
    cbn [trace set_file fst]. rewrite T3, T2.
    apply existsb_none. apply Forall_app. split.
    - repeat constructor; cbn; apply Nat.ltb_ge; unfold tag_end; lia.
    - revert W3. apply reads_within_le. unfold tag_end. fold F. lia. }
  destruct RUN as (w & R1 & R2).
  unfold readMetadata. rewrite O, R1. split; [reflexivity|exact R2].
Qed.

(** ** What the legacy reader depends on *)

Lemma firstn_skipn_firstn {A} (l : list A) a n k :
  (a + n <= k)%nat ->
  firstn n (skipn a (firstn k l)) = firstn n (skipn a l).
Proof.
  intros H. rewrite skipn_firstn_comm, firstn_firstn.
  f_equal. lia.
Qed.

Lemma nth_firstn_below {A} (l : list A) i k d :
  (i < k)%nat -> nth i (firstn k l) d = nth i l d.
Proof.
  revert i k. induction l as [|x l IH]; intros i k H.
  - rewrite firstn_nil. reflexivity.
  - destruct k as [|k]; [lia|]. destruct i as [|i]; [reflexivity|].
    cbn [firstn nth]. apply IH. lia.
Qed.

Lemma legacy_depends_on_97 block :
  tag_test (firstn 97 block) = tag_test block /\
  legacy_fields (firstn 97 block) = legacy_fields block.
Proof.
  split.
  - unfold tag_test. now rewrite !nth_firstn_below by lia.
  - unfold legacy_fields. now rewrite !firstn_skipn_firstn by lia.
Qed.

(** X14: on a file of at least 128 bytes that does not start with "ID3",
    the result depends on the first 97 of its last 128 bytes only: two
    such files that agree there give the same record or the same error,
    whatever their other bytes (the audio data, the comment and genre of
    the trailer). *)
Theorem readMetadata_legacy_trailer (data1 data2 : std_string) :
  (128 <= length data1)%nat ->
  (128 <= length data2)%nat ->
  firstn 3 data1 <> lit "ID3" ->
  firstn 3 data2 <> lit "ID3" ->
  firstn 97 (last_128 data1) = firstn 97 (last_128 data2) ->
  snd (run_readMetadata data1) = snd (run_readMetadata data2).
Proof.
  intros L1 L2 N1 N2 E.
  rewrite (run_readMetadata_legacy data1 L1 N1).
  rewrite (run_readMetadata_legacy data2 L2 N2).
  destruct (legacy_depends_on_97 (last_128 data1)) as [T1 F1].
  destruct (legacy_depends_on_97 (last_128 data2)) as [T2 F2].
  now rewrite <- T1, <- F1, <- T2, <- F2, E.
Qed.

(** ** The further properties on sample files *)

Lemma decodeSynchsafeInt_digits_witness :
  size_of_field (synchsafe_field 257) = Some 257.
Proof.
  apply (decodeSynchsafeInt_digits 257 NUL NUL NUL NUL NUL NUL NUL NUL);
    first [ reflexivity | split; [discriminate|reflexivity] ].
Defined.

Lemma hasID3v2Tag_from_any_position_witness :
  exists w' tagged,
    hasID3v2Tag after_overrun_header = (w', Val tagged) /\
    (tagged = true <->
     firstn 3 (contents (file after_overrun_header)) = lit "ID3") /\
    gpos (file w') = 3%nat /\
    good (file w') = true /\
    contents (file w') = contents (file after_overrun_header) /\
    metadata w' = metadata after_overrun_header.
Proof.
  apply (hasID3v2Tag_from_any_position after_overrun_header).
  - reflexivity.
  - apply Nat.leb_le. reflexivity.
Defined.

Lemma readMetadata_short_file_witness :
  exists w,
    run_readMetadata short_file = (w, Undefined) /\
    trace w = [Ev_read 0 3 3; Call_readID3v1Tag; Ev_read 3 128 0] /\
    failbit (file w) = true /\
    metadata w = empty_MetaData.
Proof.
  apply (readMetadata_short_file short_file).
  - split; [apply Nat.leb_le|apply Nat.ltb_lt]; reflexivity.
  - discriminate.
Defined.

Lemma readMetadata_truncated_header_witness :
  exists w,
    run_readMetadata truncated_header_file = (w, Undefined) /\
    trace w = [Ev_read 0 3 3; Call_readID3v2Tag; Ev_read 0 10 5] /\
    failbit (file w) = true /\
    metadata w = empty_MetaData.
Proof.
  apply (readMetadata_truncated_header truncated_header_file).
  - reflexivity.
  - apply Nat.ltb_lt. reflexivity.
Defined.

Lemma readMetadata_no_frames_witness :
  readMetadata (single_file "song.mp3" empty_tag_file) "song.mp3" =
    Val empty_MetaData.
Proof.
  apply (readMetadata_no_frames
           (single_file "song.mp3" empty_tag_file) "song.mp3"
           version_3 [byte 0; byte 0; byte 0; byte 0] 0 legacy_file).
  - reflexivity.
  - reflexivity.
  - reflexivity.
  - discriminate.
Defined.

Lemma readMetadata_field_of_witness :
  exists m,
    readMetadata
      (single_file "song.mp3"
         (tag_header version_3 size_42
          ++ frames_bytes ([hello_frame] ++ artist_frame :: []) ++ []))
      "song.mp3" = Val m /\
    artist m = lit "Band".
Proof.
  apply (readMetadata_field_of
           (single_file "song.mp3"
              (tag_header version_3 size_42
               ++ frames_bytes ([hello_frame] ++ artist_frame :: []) ++ []))
           "song.mp3" version_3 size_42 42
           [hello_frame] [] artist_frame artist []).
  - reflexivity.
  - reflexivity.
  - reflexivity.
  - repeat constructor.
  - vm_compute. split; [reflexivity|discriminate].
  - reflexivity.
  - discriminate.
  - constructor.
Defined.

Lemma readMetadata_skips_frames_witness :
  readMetadata
    (single_file "song.mp3"
       (tag_header version_3 [byte 0; byte 0; byte 0; byte 50]
        ++ frames_bytes [comment_frame; hello_frame; padding_frame] ++ []))
    "song.mp3" =
  Val (mkMetaData (lit "Hello" ++ [NUL]) [] [] []).
Proof.
  apply (readMetadata_skips_frames
           (single_file "song.mp3"
              (tag_header version_3 [byte 0; byte 0; byte 0; byte 50]
               ++ frames_bytes [comment_frame; hello_frame; padding_frame]
               ++ []))
           "song.mp3" version_3 [byte 0; byte 0; byte 0; byte 50] 50
           [comment_frame; hello_frame; padding_frame] []).
  - reflexivity.
  - discriminate.
  - reflexivity.
  - reflexivity.
  - repeat constructor.
  - vm_compute. split; [reflexivity|discriminate].
Defined.

Lemma readMetadata_ignores_flags_witness :
  readMetadata
    (single_file "b.mp3"
       (tag_header [byte 4; byte 0; byte 128] size_42
        ++ frames_bytes
             (map (reflag (fun _ => [byte 128; byte 64]))
                  [hello_frame; artist_frame])
        ++ lit "other audio"))
    "b.mp3" =
  readMetadata
    (single_file "a.mp3"
       (tag_header version_3 size_42
        ++ frames_bytes [hello_frame; artist_frame] ++ lit "audio"))
    "a.mp3".
Proof.
  apply (readMetadata_ignores_flags
           (single_file "a.mp3"
              (tag_header version_3 size_42
               ++ frames_bytes [hello_frame; artist_frame] ++ lit "audio"))
           (single_file "b.mp3"
              (tag_header [byte 4; byte 0; byte 128] size_42
               ++ frames_bytes
                    (map (reflag (fun _ => [byte 128; byte 64]))
                         [hello_frame; artist_frame])
               ++ lit "other audio"))
           "a.mp3" "b.mp3" version_3 [byte 4; byte 0; byte 128] size_42 42
           [hello_frame; artist_frame] (fun _ => [byte 128; byte 64])
           (lit "audio") (lit "other audio")).
  - reflexivity.
  - reflexivity.
  - discriminate.
  - reflexivity.
  - reflexivity.
  - reflexivity.
  - reflexivity.
  - repeat constructor.
  - vm_compute. split; [reflexivity|discriminate].
Defined.

Lemma readMetadata_conformant_tag_witness :
  readMetadata
    (single_file "song.mp3"
       (tag_header version_3 [byte 0; byte 0; byte 0; byte 45]
        ++ frames_bytes [hello_frame; artist_frame]
        ++ repeat NUL 13 ++ lit "MPEG-AUDIO-DATA"))
    "song.mp3" =
    Val (mkMetaData (lit "Hello" ++ [NUL]) (lit "Band") [] []) /\
  existsb (read_past 55)
    (trace (fst (run_readMetadata
                   (tag_header version_3 [byte 0; byte 0; byte 0; byte 45]
                    ++ frames_bytes [hello_frame; artist_frame]
                    ++ repeat NUL 13 ++ lit "MPEG-AUDIO-DATA")))) = false.
Proof.
  apply (readMetadata_conformant_tag
           (single_file "song.mp3"
              (tag_header version_3 [byte 0; byte 0; byte 0; byte 45]
               ++ frames_bytes [hello_frame; artist_frame]
               ++ repeat NUL 13 ++ lit "MPEG-AUDIO-DATA"))
           "song.mp3" version_3 [byte 0; byte 0; byte 0; byte 45]
           [hello_frame; artist_frame] 13 (lit "MPEG-AUDIO-DATA")).
  - reflexivity.
  - reflexivity.
  - reflexivity.
  - repeat constructor.
Defined.

Lemma readMetadata_legacy_trailer_witness :
  snd (run_readMetadata (lit "other audio" ++ firstn 97 (last_128 legacy_file)
           ++ repeat "x"%char 31)) =
  snd (run_readMetadata legacy_file).
Proof.
  apply (readMetadata_legacy_trailer
           (lit "other audio" ++ firstn 97 (last_128 legacy_file)
           ++ repeat "x"%char 31) legacy_file).
  - apply Nat.leb_le. reflexivity.
  - apply Nat.leb_le. reflexivity.
  - discriminate.
  - discriminate.
  - reflexivity.
Defined.

Lemma readMetadata_exceptions_witness :
  (single_file "song.mp3" untagged_file "song.mp3"%string = None /\
   "No ID3v1 tag found in file."%string =
     String.append "Could not open file: " "song.mp3") \/
  (exists data,
     single_file "song.mp3" untagged_file "song.mp3"%string = Some data /\
     firstn 3 data <> lit "ID3" /\
     ((128 <= length data)%nat -> firstn 3 (last_128 data) <> lit "TAG") /\
     "No ID3v1 tag found in file."%string =
       "No ID3v1 tag found in file."%string).
Proof.
  apply (readMetadata_exceptions (single_file "song.mp3" untagged_file)
           "song.mp3" "No ID3v1 tag found in file.").
  vm_compute. reflexivity.
Defined.
